(** * watchman.js: a shallow embedding of the router and its path compiler

  The development follows [src/src/watchman.js] (the ES2015 source of the
  library; the bundled build derived from it behaves identically):

  - [Chars], [Regex]: the part of the host's regular expressions that the
    library relies on ([new RegExp(source, 'i')], [exec], global
    [String.prototype.replace]), as a backtracking matcher written in the
    continuation style of the ECMAScript specification;
  - [Compiler]: [isHashRouter], [pathToRegExp], [paramsParser];
  - [Router]: [createRule], [watch], [watch.use], [watch.run], the event
    surface ([on], [emit], [removeEventListener], [removeAllListeners]);
  - [Navigation]: what [watch.run] installs on a host without
    [onhashchange] ([addHashChange], [removeHashChange], the poller).

  The properties are in the modules whose names end in [Facts]; the
  notions they are stated with and the examples come before them.

  Strings are sequences of code units; the model covers code units below
  256 (Latin-1), written [list ascii]. *)

From Stdlib Require Import Ascii String List Arith Lia ZArith Bool.
From stdpp Require Import base option list strings gmap.

Import ListNotations.
Local Open Scope nat_scope.
Local Open Scope list_scope.

(** A JavaScript string (Latin-1 code units). *)
Abbreviation jsstring := (list ascii).

(** String literals of the source are written [str "..."]. *)
Definition str (s : string) : jsstring := list_ascii_of_string s.

(* ===================================================================== *)
(** ** Characters *)
(* ===================================================================== *)
Module Chars.

Definition code (c : ascii) : nat := nat_of_ascii c.

Definition between (lo hi : nat) (c : ascii) : bool :=
  (lo <=? code c) && (code c <=? hi).

(** [\d], [\w] and [\s] of the host's regular expressions. *)
Definition is_digit (c : ascii) : bool := between 48 57 c.

Definition is_word (c : ascii) : bool :=
  between 97 122 c || between 65 90 c || is_digit c || (code c =? 95).

Definition is_space (c : ascii) : bool :=
  between 9 13 c || (code c =? 32) || (code c =? 160).

(** Line terminators below 256: LF and CR.  [.] matches anything else. *)
Definition is_line_terminator (c : ascii) : bool :=
  (code c =? 10) || (code c =? 13).

(** Lower-case letters of Latin-1 whose upper-case form is again a single
    Latin-1 code unit. *)
Definition is_lower (c : ascii) : bool :=
  between 97 122 c || (between 224 254 c && negb (code c =? 247)).

Definition is_upper (c : ascii) : bool :=
  between 65 90 c || (between 192 222 c && negb (code c =? 215)).

Definition to_upper (c : ascii) : ascii :=
  if is_lower c then ascii_of_nat (code c - 32) else c.

Definition to_lower (c : ascii) : ascii :=
  if is_upper c then ascii_of_nat (code c + 32) else c.

(** [Canonicalize] of the ECMAScript specification for a non-unicode
    regular expression: the identity without the [i] flag, the upper-case
    form with it.  (The two Latin-1 letters whose upper-case form leaves
    Latin-1 are canonical for themselves here: no other Latin-1 code unit
    shares their canonical form.) *)
Definition canonicalize (ignoreCase : bool) (c : ascii) : ascii :=
  if ignoreCase then to_upper c else c.

(** All code units with the same canonical form as [c]. *)
Definition variants (ignoreCase : bool) (c : ascii) : list ascii :=
  if ignoreCase then [c; to_upper c; to_lower c] else [c].

(** Equality of two strings up to letter case: what a sequence of pattern
    characters accepts under the [i] flag. *)
Definition same_letters (a b : jsstring) : Prop :=
  map (canonicalize true) a = map (canonicalize true) b.

End Chars.

(* ===================================================================== *)
(** ** Regular expressions of the host *)
(* ===================================================================== *)
Module Regex.
Import Chars.

(** Members of a character class. *)
Inductive cset : Type :=
| CsChar (c : ascii)
| CsRange (lo hi : ascii)
| CsDigit (negated : bool)
| CsWord (negated : bool)
| CsSpace (negated : bool).

(** The abstract syntax of a pattern.  Capturing groups carry their
    number (left parentheses are numbered from 1, left to right);
    a non-capturing group [(?:r)] is its body. *)
Inductive regex : Type :=
| REmpty
| RChar (c : ascii)
| RDot
| RSet (invert : bool) (items : list cset)
| RSeq (r1 r2 : regex)
| RAlt (r1 r2 : regex)
| RQuant (min : nat) (max : option nat) (greedy : bool) (r : regex)
| RGroup (idx : nat) (r : regex)
| RStart
| REnd
| RWordB (negated : bool).

(** A regular-expression object: its pattern and its [i] flag.  (The
    library builds all of its own expressions without [g] or [y], so
    [lastIndex] plays no role in [exec].) *)
Record RegExp : Type := mkRegExp { pattern : regex; ignoreCase : bool }.

(** Numbers of the capturing groups of a pattern, left to right. *)
Fixpoint group_ids (r : regex) : list nat :=
  match r with
  | RSeq a b | RAlt a b => group_ids a ++ group_ids b
  | RQuant _ _ _ a => group_ids a
  | RGroup i a => i :: group_ids a
  | _ => []
  end.

(** [NcapturingParens]. *)
Definition ngroups (r : regex) : nat := length (group_ids r).

(** *** Matcher state *)
Record mstate : Type := mkState {
  prev : option ascii;               (* the code unit before the position *)
  rest : jsstring;                   (* the input from the position on *)
  caps : list (nat * jsstring)       (* captures that participated *)
}.

Definition cont : Type := mstate -> option mstate.

Definition cap_get (i : nat) (cs : list (nat * jsstring)) : option jsstring :=
  snd <$> find (fun p => fst p =? i) cs.

Definition cap_clear (ids : list nat) (cs : list (nat * jsstring))
  : list (nat * jsstring) :=
  filter (fun p => negb (existsb (Nat.eqb (fst p)) ids)) cs.

Definition cap_set (i : nat) (v : jsstring) (cs : list (nat * jsstring))
  : list (nat * jsstring) :=
  (i, v) :: cap_clear [i] cs.

Definition item_has (it : cset) (x : ascii) : bool :=
  match it with
  | CsChar c => Ascii.eqb c x
  | CsRange lo hi => between (code lo) (code hi) x
  | CsDigit n => xorb n (is_digit x)
  | CsWord n => xorb n (is_word x)
  | CsSpace n => xorb n (is_space x)
  end.

(** [CharacterSetMatcher]: some member of the set has the canonical form
    of the input code unit. *)
Definition set_has (ic : bool) (items : list cset) (ch : ascii) : bool :=
  existsb (fun x => existsb (fun it => item_has it x) items) (variants ic ch).

(** Consume one code unit accepted by [p]. *)
Definition step (p : ascii -> bool) (x : mstate) (c : cont) : option mstate :=
  match rest x with
  | ch :: tl => if p ch then c (mkState (Some ch) tl (caps x)) else None
  | [] => None
  end.

Definition is_word_opt (o : option ascii) : bool :=
  match o with Some ch => is_word ch | None => false end.

(** [RepeatMatcher] of the specification.  An iteration that consumes
    nothing once the minimum is reached fails, so at most [min] plus the
    length of the remaining input iterations succeed: [fuel] is set to
    one more than that by [matcher]. *)
Fixpoint repeat_matcher (m : mstate -> cont -> option mstate)
    (ids : list nat) (fuel min : nat) (max : option nat) (greedy : bool)
    (x : mstate) (c : cont) : option mstate :=
  match fuel with
  | 0 => None
  | S fuel' =>
    match max with
    | Some 0 => c x
    | _ =>
      let d : cont := fun y =>
        if (min =? 0) && (length (rest y) =? length (rest x)) then None
        else repeat_matcher m ids fuel' (Nat.pred min) (Nat.pred <$> max)
                            greedy y c in
      let xr := mkState (prev x) (rest x) (cap_clear ids (caps x)) in
      if negb (min =? 0) then m xr d
      else if greedy then
        match m xr d with Some z => Some z | None => c x end
      else
        match c x with Some z => Some z | None => m xr d end
    end
  end.

(** The backtracking matcher: [matcher ic r x c] matches [r] at state [x]
    and hands every candidate end state to the continuation [c]. *)
Fixpoint matcher (ic : bool) (r : regex) (x : mstate) (c : cont)
  : option mstate :=
  match r with
  | REmpty => c x
  | RChar a =>
      step (fun ch => Ascii.eqb (canonicalize ic a) (canonicalize ic ch)) x c
  | RDot => step (fun ch => negb (is_line_terminator ch)) x c
  | RSet invert items => step (fun ch => xorb invert (set_has ic items ch)) x c
  | RSeq a b => matcher ic a x (fun y => matcher ic b y c)
  | RAlt a b =>
      match matcher ic a x c with
      | Some z => Some z
      | None => matcher ic b x c
      end
  | RQuant min max greedy a =>
      repeat_matcher (matcher ic a) (group_ids a)
                     (S (min + length (rest x))) min max greedy x c
  | RGroup i a =>
      matcher ic a x (fun y =>
        c (mkState (prev y) (rest y)
             (cap_set i (take (length (rest x) - length (rest y)) (rest x))
                      (caps y))))
  | RStart => match prev x with None => c x | Some _ => None end
  | REnd => match rest x with [] => c x | _ :: _ => None end
  | RWordB negated =>
      let a := is_word_opt (prev x) in
      let b := is_word_opt (head (rest x)) in
      if xorb negated (xorb a b) then c x else None
  end.

(** The result of a successful match: the matched text, the captures
    [1..NcapturingParens] ([None] is [undefined]) and what follows. *)
Record match_result : Type := mkMatch {
  matched : jsstring;
  groups : list (option jsstring);
  after_prev : option ascii;
  after : jsstring
}.

(** One attempt at the current position. *)
Definition match_at (re : RegExp) (p : option ascii) (s : jsstring)
  : option match_result :=
  match matcher (ignoreCase re) (pattern re) (mkState p s []) Some with
  | Some y =>
      Some (mkMatch (take (length s - length (rest y)) s)
                    (map (fun i => cap_get i (caps y))
                         (seq 1 (ngroups (pattern re))))
                    (prev y) (rest y))
  | None => None
  end.

(** [RegExp.prototype.exec] without [g]: the first position, from the
    left, at which the pattern matches. *)
Fixpoint search (re : RegExp) (p : option ascii) (s : jsstring)
  : option match_result :=
  match match_at re p s with
  | Some m => Some m
  | None =>
      match s with
      | [] => None
      | ch :: tl => search re (Some ch) tl
      end
  end.

Definition exec (re : RegExp) (s : jsstring) : option match_result :=
  search re None s.

(** [RegExp.prototype.test]. *)
Definition test (re : RegExp) (s : jsstring) : bool :=
  match exec re s with Some _ => true | None => false end.

(** *** Global replacement

    [String.prototype.replace] with a [g] expression: the matches are found
    from left to right, each search resuming where the previous match ended
    (one code unit further after an empty match); the text between matches
    is copied. *)
Inductive piece : Type :=
| Copy (c : ascii)
| Repl (m : match_result).

Fixpoint replace_pieces (fuel : nat) (re : RegExp) (p : option ascii)
    (s : jsstring) : list piece :=
  match fuel with
  | 0 => []
  | S fuel' =>
    match match_at re p s with
    | Some m =>
        if length (after m) =? length s then
          match s with
          | [] => [Repl m]
          | ch :: tl => Repl m :: Copy ch :: replace_pieces fuel' re (Some ch) tl
          end
        else Repl m :: replace_pieces fuel' re (after_prev m) (after m)
    | None =>
        match s with
        | [] => []
        | ch :: tl => Copy ch :: replace_pieces fuel' re (Some ch) tl
        end
    end
  end.

(** The replacement callback is called once per match, in order; [St] is
    the state it mutates. *)
Fixpoint render {St : Type} (f : match_result -> St -> jsstring * St)
    (ps : list piece) (st : St) : jsstring * St :=
  match ps with
  | [] => ([], st)
  | Copy ch :: tl => let '(out, st') := render f tl st in (ch :: out, st')
  | Repl m :: tl =>
      let '(r, st1) := f m st in
      let '(out, st2) := render f tl st1 in
      (r ++ out, st2)
  end.

Definition replace_with {St : Type} (re : RegExp)
    (f : match_result -> St -> jsstring * St) (s : jsstring) (st : St)
  : jsstring * St :=
  render f (replace_pieces (S (length s)) re None s) st.

(** [s.replace(re, by)] for a replacement text without [$]. *)
Definition replace_all (re : RegExp) (by_ : jsstring) (s : jsstring) : jsstring :=
  fst (replace_with re (fun _ (u : unit) => (by_, u)) s tt).

(** [s.replace(what, by)] with a string pattern: the first occurrence only. *)
Fixpoint is_prefix (a s : jsstring) : bool :=
  match a, s with
  | [], _ => true
  | x :: a', y :: s' => Ascii.eqb x y && is_prefix a' s'
  | _ :: _, [] => false
  end.

Fixpoint replace_first (what by_ : jsstring) (s : jsstring) : jsstring :=
  if is_prefix what s then by_ ++ drop (length what) s
  else match s with
       | [] => []
       | ch :: tl => ch :: replace_first what by_ tl
       end.

(** *** [new RegExp(source, flags)]

    The pattern grammar of the host, for the constructs that route patterns
    use: pattern characters, [.], escapes, character classes, capturing and
    non-capturing groups, alternation, the quantifiers [*], [+], [?] and
    their lazy forms, [^], [$], [\b].  A source that the host rejects is a
    [SyntaxError]; a construct outside this fragment (look-around, named
    groups, back-references, braces, numeric escapes) is [Unsupported]. *)
Inductive parse_error : Type := SyntaxError | Unsupported.

Inductive result (A : Type) : Type :=
| Ok (a : A)
| Err (e : parse_error).
Arguments Ok {A} a.
Arguments Err {A} e.

Inductive token : Type :=
| TChar (c : ascii)
| TDot
| TStart
| TEnd
| TBar
| TOpen (capturing : bool)
| TClose
| TQuant (min : nat) (max : option nat) (greedy : bool)
| TSet (invert : bool) (items : list cset)
| TWordB (negated : bool).

(** What precedes the position inside a character class. *)
Inductive cpending : Type :=
| CNone
| CAtom (a : ascii)
| CDash (a : ascii).

Inductive lmode : Type :=
| LNormal
| LEscape                                   (* after a backslash *)
| LParen                                    (* after "(" *)
| LParenQ                                   (* after "(?" *)
| LAfterQuant                               (* a lazy "?" may follow *)
| LClassStart                               (* after "[" *)
| LClass (invert : bool) (items : list cset) (p : cpending)
| LClassEsc (invert : bool) (items : list cset) (p : cpending).

(** The lexer state: the mode and the tokens read so far, last first. *)
Definition lstate : Type := lmode * list token.

Definition class_escape (e : ascii) : option cset :=
  if Ascii.eqb e "d" then Some (CsDigit false)
  else if Ascii.eqb e "D" then Some (CsDigit true)
  else if Ascii.eqb e "w" then Some (CsWord false)
  else if Ascii.eqb e "W" then Some (CsWord true)
  else if Ascii.eqb e "s" then Some (CsSpace false)
  else if Ascii.eqb e "S" then Some (CsSpace true)
  else None.

(** Escapes that denote one code unit. *)
Definition char_escape (e : ascii) : result ascii :=
  if Ascii.eqb e "n" then Ok (ascii_of_nat 10)
  else if Ascii.eqb e "r" then Ok (ascii_of_nat 13)
  else if Ascii.eqb e "t" then Ok (ascii_of_nat 9)
  else if Ascii.eqb e "v" then Ok (ascii_of_nat 11)
  else if Ascii.eqb e "f" then Ok (ascii_of_nat 12)
  else if is_digit e || Ascii.eqb e "x" || Ascii.eqb e "u" || Ascii.eqb e "c"
          || Ascii.eqb e "k"
  then Err Unsupported
  else Ok e.

Definition commit (p : cpending) (items : list cset) : list cset :=
  match p with
  | CNone => items
  | CAtom a => CsChar a :: items
  | CDash a => CsChar "-" :: CsChar a :: items
  end.

(** A code unit [ch] read inside a class (literally or through an escape). *)
Definition class_char (invert : bool) (items : list cset) (p : cpending)
    (ch : ascii) : result lmode :=
  match p with
  | CDash a =>
      if code ch <? code a then Err SyntaxError
      else Ok (LClass invert (CsRange a ch :: items) CNone)
  | _ => Ok (LClass invert (commit p items) (CAtom ch))
  end.

Definition lex_normal (ch : ascii) (toks : list token) : result lstate :=
  if Ascii.eqb ch "\" then Ok (LEscape, toks)
  else if Ascii.eqb ch "(" then Ok (LParen, toks)
  else if Ascii.eqb ch ")" then Ok (LNormal, TClose :: toks)
  else if Ascii.eqb ch "[" then Ok (LClassStart, toks)
  else if Ascii.eqb ch "*" then Ok (LAfterQuant, TQuant 0 None true :: toks)
  else if Ascii.eqb ch "+" then Ok (LAfterQuant, TQuant 1 None true :: toks)
  else if Ascii.eqb ch "?" then Ok (LAfterQuant, TQuant 0 (Some 1) true :: toks)
  else if Ascii.eqb ch "." then Ok (LNormal, TDot :: toks)
  else if Ascii.eqb ch "^" then Ok (LNormal, TStart :: toks)
  else if Ascii.eqb ch "$" then Ok (LNormal, TEnd :: toks)
  else if Ascii.eqb ch "|" then Ok (LNormal, TBar :: toks)
  else if Ascii.eqb ch "{" || Ascii.eqb ch "}" then Err Unsupported
  else Ok (LNormal, TChar ch :: toks).

Definition lex_step (st : lstate) (ch : ascii) : result lstate :=
  let '(mode, toks) := st in
  match mode with
  | LNormal => lex_normal ch toks
  | LEscape =>
      match class_escape ch with
      | Some it => Ok (LNormal, TSet false [it] :: toks)
      | None =>
          if Ascii.eqb ch "b" then Ok (LNormal, TWordB false :: toks)
          else if Ascii.eqb ch "B" then Ok (LNormal, TWordB true :: toks)
          else match char_escape ch with
               | Ok c => Ok (LNormal, TChar c :: toks)
               | Err e => Err e
               end
      end
  | LParen =>
      if Ascii.eqb ch "?" then Ok (LParenQ, toks)
      else lex_normal ch (TOpen true :: toks)
  | LParenQ =>
      if Ascii.eqb ch ":" then Ok (LNormal, TOpen false :: toks)
      else if Ascii.eqb ch "=" || Ascii.eqb ch "!" || Ascii.eqb ch "<"
      then Err Unsupported
      else Err SyntaxError
  | LAfterQuant =>
      if Ascii.eqb ch "?" then
        match toks with
        | TQuant lo hi _ :: tl => Ok (LNormal, TQuant lo hi false :: tl)
        | _ => Err SyntaxError
        end
      else lex_normal ch toks
  | LClassStart =>
      if Ascii.eqb ch "^" then Ok (LClass true [] CNone, toks)
      else if Ascii.eqb ch "]" then Ok (LNormal, TSet false [] :: toks)
      else if Ascii.eqb ch "\" then Ok (LClassEsc false [] CNone, toks)
      else Ok (LClass false [] (CAtom ch), toks)
  | LClass invert items p =>
      if Ascii.eqb ch "]" then
        Ok (LNormal, TSet invert (rev (commit p items)) :: toks)
      else if Ascii.eqb ch "\" then Ok (LClassEsc invert items p, toks)
      else match p with
           | CAtom a =>
               if Ascii.eqb ch "-" then Ok (LClass invert items (CDash a), toks)
               else Ok (LClass invert (commit p items) (CAtom ch), toks)
           | _ =>
               match class_char invert items p ch with
               | Ok m => Ok (m, toks)
               | Err e => Err e
               end
           end
  | LClassEsc invert items p =>
      match class_escape ch with
      | Some it => Ok (LClass invert (it :: commit p items) CNone, toks)
      | None =>
          let c := if Ascii.eqb ch "b" then Ok (ascii_of_nat 8)
                   else char_escape ch in
          match c with
          | Ok c' =>
              match class_char invert items p c' with
              | Ok m => Ok (m, toks)
              | Err e => Err e
              end
          | Err e => Err e
          end
      end
  end.

Fixpoint lex_run (st : lstate) (s : jsstring) : result lstate :=
  match s with
  | [] => Ok st
  | ch :: tl =>
      match lex_step st ch with
      | Ok st' => lex_run st' tl
      | Err e => Err e
      end
  end.

(** The tokens of a source text, in order. *)
Definition lex (s : jsstring) : result (list token) :=
  match lex_run (LNormal, []) s with
  | Ok (LNormal, toks) | Ok (LAfterQuant, toks) => Ok (rev toks)
  | Ok (LParen, toks) => Ok (rev (TOpen true :: toks))
  | Ok _ => Err SyntaxError
  | Err e => Err e
  end.

(** A group being read: its number when it captures, the alternatives
    already closed by [|] (last first) and the terms of the current
    alternative (last first; the flag tells whether a quantifier may
    follow). *)
Record frame : Type := mkFrame {
  f_group : option nat;
  f_alts : list regex;
  f_seq : list (regex * bool)
}.

(** The parser state: the innermost open group, the groups around it and
    the number of left capturing parentheses read so far. *)
Record pstate : Type := mkPState {
  top : frame;
  parents : list frame;
  opened : nat
}.

Definition seq_regex (terms : list (regex * bool)) : regex :=
  foldr RSeq REmpty (map fst (rev terms)).

Fixpoint alt_regex (first : regex) (others : list regex) : regex :=
  match others with
  | [] => first
  | o :: os => RAlt first (alt_regex o os)
  end.

Definition frame_regex (f : frame) : regex :=
  match rev (seq_regex (f_seq f) :: f_alts f) with
  | [] => REmpty
  | a :: more => alt_regex a more
  end.

Definition push_term (t : regex * bool) (f : frame) : frame :=
  mkFrame (f_group f) (f_alts f) (t :: f_seq f).

Definition parse_step (st : pstate) (t : token) : result pstate :=
  let f := top st in
  let term r q := Ok (mkPState (push_term (r, q) f) (parents st) (opened st)) in
  match t with
  | TChar c => term (RChar c) true
  | TDot => term RDot true
  | TSet invert items => term (RSet invert items) true
  | TStart => term RStart false
  | TEnd => term REnd false
  | TWordB n => term (RWordB n) false
  | TBar =>
      Ok (mkPState (mkFrame (f_group f) (seq_regex (f_seq f) :: f_alts f) [])
                   (parents st) (opened st))
  | TQuant lo hi greedy =>
      match f_seq f with
      | (r, true) :: tl =>
          Ok (mkPState (mkFrame (f_group f) (f_alts f)
                                ((RQuant lo hi greedy r, false) :: tl))
                       (parents st) (opened st))
      | _ => Err SyntaxError
      end
  | TOpen capturing =>
      if capturing then
        Ok (mkPState (mkFrame (Some (S (opened st))) [] [])
                     (f :: parents st) (S (opened st)))
      else
        Ok (mkPState (mkFrame None [] []) (f :: parents st) (opened st))
  | TClose =>
      match parents st with
      | [] => Err SyntaxError
      | up :: ups =>
          let body := frame_regex f in
          let r := match f_group f with
                   | Some i => RGroup i body
                   | None => body
                   end in
          Ok (mkPState (push_term (r, true) up) ups (opened st))
      end
  end.

Fixpoint parse_run (st : pstate) (toks : list token) : result pstate :=
  match toks with
  | [] => Ok st
  | t :: tl =>
      match parse_step st t with
      | Ok st' => parse_run st' tl
      | Err e => Err e
      end
  end.

Definition parse (toks : list token) : result regex :=
  match parse_run (mkPState (mkFrame None [] []) [] 0) toks with
  | Ok st =>
      match parents st with
      | [] => Ok (frame_regex (top st))
      | _ :: _ => Err SyntaxError
      end
  | Err e => Err e
  end.

(** [new RegExp(source, 'i')] (or without the flag). *)
Definition RegExp_new (source : jsstring) (ic : bool) : result RegExp :=
  match lex source with
  | Ok toks =>
      match parse toks with
      | Ok r => Ok (mkRegExp r ic)
      | Err e => Err e
      end
  | Err e => Err e
  end.

(** *** Notions used to state the properties of the matcher *)

(** A matcher is local when it looks at its continuation only on states
    that are not longer than the one it started from. *)
Definition local (m : mstate -> cont -> option mstate) : Prop :=
  forall x c1 c2,
    (forall y, length (rest y) <= length (rest x) -> c1 y = c2 y) ->
    m x c1 = m x c2.

(** [demands ic r a]: [r] matches only where the code unit [a] occurs in
    the input from the position on. *)
Definition demands (ic : bool) (r : regex) (a : ascii) : Prop :=
  forall x c z, matcher ic r x c = Some z -> a ∈ rest x.

(** Code units that the lexer reads as themselves in normal mode. *)
Definition lexes_plain (c : ascii) : Prop :=
  forall toks, lex_normal c toks = Ok (LNormal, TChar c :: toks).

(** The parser state after the pattern characters [p]. *)
Definition push_chars (p : jsstring) (st : pstate) : pstate :=
  mkPState (mkFrame (f_group (top st)) (f_alts (top st))
                    (rev (map (fun c => (RChar c, true)) p) ++ f_seq (top st)))
           (parents st) (opened st).

(** The tokens of the text ["((#.+)?)$"]. *)
Definition hash_tokens : list token :=
  [TOpen true; TOpen true; TChar "#"; TDot; TQuant 1 None true; TClose;
   TQuant 0 (Some 1) true; TClose; TEnd].

(** The state after the code units of [p] were read one by one. *)
Fixpoint consume (ic : bool) (p : jsstring) (x : mstate) : option mstate :=
  match p with
  | [] => Some x
  | a :: p' =>
      match rest x with
      | ch :: tl =>
          if Ascii.eqb (canonicalize ic a) (canonicalize ic ch)
          then consume ic p' (mkState (Some ch) tl (caps x))
          else None
      | [] => None
      end
  end.

(** The code unit before the position once [n] has been read. *)
Definition prev_after (p : option ascii) (n : jsstring) : option ascii :=
  match n with
  | [] => p
  | _ :: _ => Some (List.last n "0"%char)
  end.

End Regex.

(* ===================================================================== *)
(** ** The pattern compiler *)
(* ===================================================================== *)
Module Compiler.
Import Chars Regex.

(** What [pathToRegExp] receives: a string, an array of strings or an
    expression built by the caller. *)
Inductive route : Type :=
| PString (s : jsstring)
| PArray (l : list jsstring)
| PRegExp (re : RegExp).

(** A rule before its handler is attached: [{keys, regexp}]. *)
Record compiled : Type := mkCompiled {
  keys : list jsstring;
  regexp : RegExp
}.

(** The expression literals of the source. *)

(** The literal "^#". *)
Definition re_hash : RegExp :=
  mkRegExp (RSeq RStart (RSeq (RChar "#") REmpty)) false.

(** The literal "([\/\(]+):" with flag g. *)
Definition re_colon : RegExp :=
  mkRegExp
    (RSeq (RGroup 1 (RSeq (RQuant 1 None true
                             (RSet false [CsChar "/"; CsChar "("])) REmpty))
          (RSeq (RChar ":") REmpty))
    false.

(** The literal that reads a parameter: "(?:", a run of word characters
    (the key) and any number of parenthesized groups right after it
    (lazily, up to the first closing parenthesis each); flag g. *)
Definition re_param : RegExp :=
  mkRegExp
    (RSeq (RChar "(") (RSeq (RChar "?") (RSeq (RChar ":")
      (RSeq (RGroup 1 (RSeq (RQuant 1 None true (RSet false [CsWord false]))
                            REmpty))
      (RSeq (RGroup 2
               (RSeq (RQuant 0 None true
                        (RGroup 3
                           (RSeq (RChar "(")
                              (RSeq (RQuant 0 None false RDot)
                                 (RSeq (RChar ")") REmpty)))))
                     REmpty))
            REmpty)))))
    false.

(** The literal "\(|\)" with flag g. *)
Definition re_paren : RegExp :=
  mkRegExp (RAlt (RSeq (RChar "(") REmpty) (RSeq (RChar ")") REmpty)) false.

(** The literal "\*" with flag g. *)
Definition re_star : RegExp :=
  mkRegExp (RSeq (RChar "*") REmpty) false.

(** [isHashRouter]: [/^#/.test(path)]. *)
Definition isHashRouter (path : jsstring) : bool := test re_hash path.

(** [Array.prototype.join]. *)
Fixpoint join (sep : jsstring) (l : list jsstring) : jsstring :=
  match l with
  | [] => []
  | [a] => a
  | a :: tl => a ++ sep ++ join sep tl
  end.

(** The [i]-th argument of a replacement callback ([None]: [undefined]). *)
Definition group (i : nat) (m : match_result) : option jsstring :=
  mjoin (groups m !! (i - 1)).

(** The callback of the second replacement:
    [function(_, key, optional) { rtn.keys.push(key); ... }].
    The string literal ['\/?([^\/]+)'] of the source denotes the text
    [/?([^/]+)]: a backslash before [/] in a string literal is dropped. *)
Definition param_callback (m : match_result) (ks : list jsstring)
  : jsstring * list jsstring :=
  let key := default [] (group 1 m) in
  let optional := group 2 m in
  let match_ :=
    match optional with
    | Some ((_ :: _) as o) => replace_all re_paren [] o
    | _ => str "/?([^/]+)"
    end in
  (str "(?:" ++ match_ ++ str "?)", ks ++ [key]).

(** The chain of replacements that turns a path into the source text of
    its expression, together with the keys pushed on the way. *)
Definition rewrite_path (path : jsstring) : jsstring * list jsstring :=
  let s1 := replace_all re_colon (str "(?:") path in
  let '(s2, ks) := replace_with re_param param_callback s1 [] in
  let s3 := replace_first (str "))") (str ")") s2 in
  let s4 := replace_all re_star (str "(.*)") s3 in
  ((if isHashRouter path then [] else str "^") ++ s4 ++ str "((#.+)?)$", ks).

(** The string an array pattern is compiled from:
    ['(' + path.join('|') + ')']. *)
Definition alternation (l : list jsstring) : jsstring :=
  str "(" ++ join (str "|") l ++ str ")".

(** The end of [pathToRegExp], for a path that is a string by now.
    [new RegExp] throws on a malformed source. *)
Definition compile_text (path : jsstring) : result compiled :=
  let '(source, ks) := rewrite_path path in
  match RegExp_new source true with
  | Ok re => Ok (mkCompiled ks re)
  | Err e => Err e
  end.

(** [pathToRegExp] *)
Definition pathToRegExp (path : route) : result compiled :=
  match path with
  | PRegExp re => Ok (mkCompiled [] re)
  | PArray l => compile_text (alternation l)
  | PString s => compile_text s
  end.

(** The values of a [params] object: a string or [undefined]. *)
Abbreviation params_t := (gmap (list ascii) (option (list ascii))).

(** The loop of [paramsParser]: [params[keys[i]] = matches[i]]. *)
Fixpoint bind_params (ks : list jsstring) (i : nat)
    (matches : list (option jsstring)) (params : params_t) : params_t :=
  match ks with
  | [] => params
  | k :: tl =>
      bind_params tl (S i) matches (<[k := mjoin (matches !! i)]> params)
  end.

(** [paramsParser]: [None] when [exec] returns [null] (reading [slice] of
    it throws). *)
Definition paramsParser (url : jsstring) (ks : list jsstring) (re : RegExp)
  : option params_t :=
  match exec re url with
  | Some m => Some (bind_params ks 0 (groups m) ∅)
  | None => None
  end.

(** [params.name]: [None] is [undefined], for a missing property as for one
    holding [undefined]. *)
Definition param (params : params_t) (name : jsstring) : option jsstring :=
  mjoin (params !! name).

(** *** What a path is expected to compile to *)

(** Code units that are pattern characters of the host's grammar and mean
    nothing to [pathToRegExp]: all but [\ ^ $ . * + ? ( ) [ ] { } |] and
    the colon. *)
Definition is_plain (c : ascii) : bool :=
  negb (existsb (Ascii.eqb c) (str "\^$.*+?()[]{}|:")).

(** The end of every compiled expression, the text ["((#.+)?)$"]: group
    [k] around the optional group [k + 1] that reads a [#] and what
    follows it, then the end of the input. *)
Definition hash_tail (k : nat) : regex :=
  RSeq (RGroup k
          (RSeq (RQuant 0 (Some 1) true
                   (RGroup (S k)
                      (RSeq (RChar "#")
                         (RSeq (RQuant 1 None true RDot) REmpty))))
                REmpty))
       (RSeq REnd REmpty).

(** The expression of a path made of plain code units. *)
Definition literal_regex (p : jsstring) : regex :=
  RSeq RStart (foldr RSeq (hash_tail 1) (map RChar p)).

(** What may follow the literal in a path that matches: nothing, or a [#]
    and at least one code unit, none of them a line terminator. *)
Definition is_fragment (t : jsstring) : Prop :=
  t = [] \/ exists f, t = "#"%char :: f /\ f <> []
                      /\ Forall (fun ch => is_line_terminator ch = false) f.

(** *** Paths made of segments *)










(** *** Notions used to state the properties of the compiler *)








End Compiler.

(* ===================================================================== *)
(** ** The router *)
(* ===================================================================== *)
Module Router.
Import Chars Regex Compiler.

(** *** Values and user functions

    A user function is known by what it does when called: observable
    actions of its own and calls of the continuation it was handed (its
    second argument). *)
Inductive action : Type :=
| Act (label : nat)
| CallNext.

Record jsfun : Type := mkFun { fid : nat; body : list action }.

(** The values that reach the router as handlers, middlewares, listeners
    and callbacks.  [VRedirect target] is the closure that [createRule]
    builds around a [String] object. *)
Inductive value : Type :=
| VUndefined
| VStr (s : jsstring)
| VStrObj (s : jsstring)
| VFun (f : jsfun)
| VRedirect (target : jsstring).

Global Instance action_eq_dec : EqDecision action.
Proof. solve_decision. Defined.
Global Instance jsfun_eq_dec : EqDecision jsfun.
Proof. solve_decision. Defined.
Global Instance value_eq_dec : EqDecision value.
Proof. solve_decision. Defined.

(** [if (v)] *)
Definition truthy (v : value) : bool :=
  match v with
  | VUndefined | VStr [] => false
  | _ => true
  end.

(** [typeof v === 'function'] *)
Definition is_function (v : value) : bool :=
  match v with
  | VFun _ | VRedirect _ => true
  | _ => false
  end.

(** A rule: what [pathToRegExp] returned, with its handler attached. *)
Record rule : Type := mkRule {
  rule_compiled :> compiled;
  handler : value
}.

(** The context of a dispatch: [{params, path}]. *)
Record context : Type := mkCtx { params : params_t; path : jsstring }.

(** What a run leaves behind, for the observer: the calls of user functions
    with their arguments, and the actions those performed. *)
Inductive event : Type :=
| EvMiddleware (f : nat) (ctx : context)
| EvHandler (f : nat) (ctx : context)
| EvRedirect (target : jsstring)
| EvCallback (f : nat)
| EvAct (label : nat)
| EvObserve.

(** What is thrown.  [Exhausted] is not an exception of the host: it marks
    a [layer] out of fuel, which never happens (lemma
    [layer_fuel_suffices]). *)
Inductive exn : Type :=
| TypeError (msg : string)
| ReferenceError (msg : string)
| RegExpError (e : parse_error)
| Error (msg : string)
| Exhausted.

(** The state attached to the function object [watch], the host's current
    location ([location.pathname + location.hash]), the counter [_i] of the
    dispatch in progress and the events so far (latest first). *)
Record router : Type := mkRouter {
  _watching : option (list rule);
  _watchman_middlewares : option (list value);
  running : bool;
  __base : jsstring;
  _events : option (gmap string (list value));
  location : jsstring;
  _i : nat;
  log : list event
}.

(** The router once the module is loaded: only [watch.__base = ''] is set. *)
Definition fresh (loc : jsstring) : router :=
  mkRouter None None false [] None loc 0 [].

(** *** Computations: state and exceptions *)
Inductive completion (A : Type) : Type :=
| Normal (a : A)
| Throw (e : exn).
Arguments Normal {A} a.
Arguments Throw {A} e.

Definition M (A : Type) : Type := router -> completion A * router.

Definition ret {A} (a : A) : M A := fun w => (Normal a, w).

Definition bind {A B} (m : M A) (k : A -> M B) : M B :=
  fun w => match m w with
           | (Normal a, w') => k a w'
           | (Throw e, w') => (Throw e, w')
           end.

Definition throw {A} (e : exn) : M A := fun w => (Throw e, w).
Definition get : M router := fun w => (Normal w, w).
Definition modify (f : router -> router) : M unit := fun w => (Normal tt, f w).

Global Instance M_ret : MRet M := @ret.
Global Instance M_bind : MBind M := fun A B k m => bind m k.

Definition set_watching (v : option (list rule)) (w : router) : router :=
  mkRouter v (_watchman_middlewares w) (running w) (__base w) (_events w)
           (location w) (_i w) (log w).
Definition set_middlewares (v : option (list value)) (w : router) : router :=
  mkRouter (_watching w) v (running w) (__base w) (_events w)
           (location w) (_i w) (log w).
Definition set_running (v : bool) (w : router) : router :=
  mkRouter (_watching w) (_watchman_middlewares w) v (__base w) (_events w)
           (location w) (_i w) (log w).
Definition set_base (v : jsstring) (w : router) : router :=
  mkRouter (_watching w) (_watchman_middlewares w) (running w) v (_events w)
           (location w) (_i w) (log w).
Definition set_events (v : option (gmap string (list value))) (w : router)
  : router :=
  mkRouter (_watching w) (_watchman_middlewares w) (running w) (__base w) v
           (location w) (_i w) (log w).
Definition set_i (v : nat) (w : router) : router :=
  mkRouter (_watching w) (_watchman_middlewares w) (running w) (__base w)
           (_events w) (location w) v (log w).
Definition record (e : event) (w : router) : router :=
  mkRouter (_watching w) (_watchman_middlewares w) (running w) (__base w)
           (_events w) (location w) (_i w) (e :: log w).

(** The events of a run in the order they happened. *)
Definition history (w : router) : list event := rev (log w).

(** *** The event surface *)

(** [Array.prototype.indexOf] and [Array.prototype.splice(start, count)]. *)
Fixpoint indexOf {A} `{EqDecision A} (x : A) (l : list A) : Z :=
  match l with
  | [] => (-1)%Z
  | y :: tl =>
      if decide (y = x) then 0%Z
      else let i := indexOf x tl in
           if (i <? 0)%Z then (-1)%Z else (i + 1)%Z
  end.

Definition splice {A} (start count : Z) (l : list A) : list A :=
  let len := Z.of_nat (length l) in
  let from := if (start <? 0)%Z then Z.max (len + start) 0
              else Z.min start len in
  let n := Z.min (Z.max count 0) (len - from) in
  take (Z.to_nat from) l ++ drop (Z.to_nat (from + n)) l.

(** [if (!('_events' in watch)) watch._events = {}] *)
Definition events_of (w : router) : gmap string (list value) :=
  default ∅ (_events w).

Definition listener_error : exn := TypeError "listener must be a function".

(** [watch.on] *)
Definition on (type : string) (listener : value) : M unit :=
  modify (fun w => set_events (Some (events_of w)) w);;
  if is_function listener then
    modify (fun w =>
      let hs := default [] (events_of w !! type) in
      set_events (Some (<[type := hs ++ [listener]]> (events_of w))) w)
  else throw listener_error.

(** [watch.removeEventListener] *)
Definition removeEventListener (type : string) (listener : value) : M unit :=
  modify (fun w => set_events (Some (events_of w)) w);;
  if is_function listener then
    modify (fun w =>
      match events_of w !! type with
      | Some handlers =>
          let i := indexOf listener handlers in
          set_events (Some (<[type := splice i 1 handlers]> (events_of w))) w
      | None => w
      end)
  else throw listener_error.


(** *** Registration *)

(** [String.prototype.indexOf]. *)
Fixpoint string_indexOf (s what : jsstring) : Z :=
  if is_prefix what s then 0%Z
  else match s with
       | [] => (-1)%Z
       | _ :: tl =>
           let i := string_indexOf tl what in
           if (i <? 0)%Z then (-1)%Z else (i + 1)%Z
       end.

(** The first lines of [createRule]: the base is put in front of a path
    that is not ["*"] and does not start with it.  [indexOf] is the
    string's or the array's; an expression has none, and calling it throws.
    An array that goes through the concatenation becomes the string of its
    elements separated by commas. *)
Definition with_base (base : jsstring) (path : route) : completion route :=
  match path with
  | PString s =>
      if negb (bool_decide (s = str "*"))
         && negb (string_indexOf s base =? 0)%Z
      then Normal (PString (base ++ (if bool_decide (s = str "/") then []
                                     else s)))
      else Normal path
  | PArray l =>
      if negb (indexOf base l =? 0)%Z
      then let s := join (str ",") l in
           Normal (PString (base ++ (if bool_decide (s = str "/") then []
                                     else s)))
      else Normal path
  | PRegExp _ => Throw (TypeError "path.indexOf is not a function")
  end.

(** [createRule].  [handler instanceof String] holds of [String] objects,
    not of primitive strings. *)
Definition createRule (path : route) (handler : value) : M rule :=
  w ← get;
  match with_base (__base w) path with
  | Throw e => throw e
  | Normal path' =>
      match pathToRegExp path' with
      | Err e => throw (RegExpError e)
      | Ok c =>
          let handler' :=
            match handler with
            | VStrObj target => VRedirect target
            | _ => handler
            end in
          ret (mkRule c handler')
      end
  end.

(** [watch(path, handler)]: the branch for two arguments. *)
Definition register (path : route) (handler : value) : M unit :=
  modify (fun w => set_watching (Some (default [] (_watching w))) w);;
  rule ← createRule path handler;
  modify (fun w => set_watching (Some (default [] (_watching w) ++ [rule])) w).

(** [watch(mapping)]: the branch for one object; the properties are
    visited in the order [for ... in] enumerates them. *)
Fixpoint register_all (entries : list (jsstring * value)) : M unit :=
  match entries with
  | [] => ret tt
  | (p, h) :: tl => register (PString p) h;; register_all tl
  end.

(** [watch.use] *)
Definition use (args : list value) : M unit :=
  modify (fun w =>
    set_middlewares (Some (default [] (_watchman_middlewares w) ++ args)) w).

(** [watch.base]: the setter. *)
Definition base (b : jsstring) : M unit := modify (set_base b).

(** *** Calls *)

(** The body of a user function, run with the continuation it was handed
    ([None]: no second argument, calling it throws). *)
Fixpoint run_body (acts : list action) (next : option (M unit)) : M unit :=
  match acts with
  | [] => ret tt
  | Act l :: tl => modify (record (EvAct l));; run_body tl next
  | CallNext :: tl =>
      match next with
      | Some k => k;; run_body tl next
      | None => throw (TypeError "next is not a function")
      end
  end.

(** A call [v(...)].  [called] is the event that a user function leaves.
    The closure of [createRule] runs [watch({url: target})]: one argument,
    an object, whose only property [url] is registered as a path with
    [target] as its handler. *)
Definition call (v : value) (called : nat -> event) (next : option (M unit))
  : M unit :=
  match v with
  | VFun f => modify (record (called (fid f)));; run_body (body f) next
  | VRedirect target =>
      modify (record (EvRedirect target));;
      register_all [(str "url", VStrObj target)]
  | _ => throw (TypeError "not a function")
  end.

(** [watch.emit].  The body of its loop starts with [slice(arguments)];
    the module defines no [slice], so the first turn of the loop throws and
    no listener is reached.  A type without listeners emits in silence. *)
Definition emit_loop (type : string) (args : list jsstring)
    (handlers : list value) : M unit :=
  match handlers with
  | [] => ret tt
  | _ :: _ => throw (ReferenceError "slice is not defined")
  end.

Definition emit (type : string) (args : list jsstring) : M unit :=
  modify (fun w => set_events (Some (events_of w)) w);;
  w ← get;
  match events_of w !! type with
  | Some handlers => emit_loop type args handlers
  | None => ret tt
  end.

(** *** Dispatch *)

(** [layer(index)] with the continuation [function() { layer(++_i) }].
    Every nested call has a larger index, and an index past the end of the
    middlewares ends in the handler: [fuel] bounds the nesting. *)
Fixpoint layer (fuel : nat) (ctx : context) (hit : value) (index : nat)
  : M unit :=
  w ← get;
  let curr := default VUndefined
                (default [] (_watchman_middlewares w) !! index) in
  if truthy curr then
    match fuel with
    | 0 => throw Exhausted
    | S fuel' =>
        call curr (fun i => EvMiddleware i ctx)
          (Some (modify (fun w => set_i (S (_i w)) w);;
                 w' ← get;
                 layer fuel' ctx hit (_i w')))
    end
  else call hit (fun i => EvHandler i ctx) None.

(** The body of the loop of [watch.run] for a rule that matches. *)
Definition hit_rule (r : rule) (path : jsstring) : M unit :=
  match paramsParser path (keys r) (regexp r) with
  | None => throw (TypeError "cannot read properties of null")
  | Some ps =>
      let ctx := mkCtx ps path in
      w ← get;
      match _watchman_middlewares w with
      | Some mws =>
          modify (set_i 0);;
          layer (length mws) ctx (handler r) 0
      | None => call (handler r) (fun i => EvHandler i ctx) None
      end
  end.

(** The loop of [watch.run]: the rules in order, [break] at the first
    whose expression matches. *)
Fixpoint run_loop (watching : list rule) (path : jsstring) : M unit :=
  match watching with
  | [] => ret tt
  | r :: tl =>
      match exec (regexp r) path with
      | Some _ => hit_rule r path
      | None => run_loop tl path
      end
  end.

(** The loop as the two older copies of the library kept beside the
    source have it (version 0.0.1): the same body and no [break]. *)
Fixpoint run_loop_0_0_1 (watching : list rule) (path : jsstring) : M unit :=
  match watching with
  | [] => ret tt
  | r :: tl =>
      match exec (regexp r) path with
      | Some _ => hit_rule r path;; run_loop_0_0_1 tl path
      | None => run_loop_0_0_1 tl path
      end
  end.

(** The options of [watch.run]. *)
Record options : Type := mkOptions {
  url : option jsstring;
  callback : value
}.

Definition no_options : options := mkOptions None VUndefined.

(** [options.url || location.pathname + location.hash] *)
Definition current_path (o : options) (w : router) : jsstring :=
  match url o with
  | Some ((_ :: _) as u) => u
  | _ => location w
  end.

(** The end of [watch.run], taken once: the host is asked to report
    navigation, [watching] is emitted, [running] is set and the callback
    is called. *)
Definition start_watching (o : options) : M unit :=
  w ← get;
  if running w then ret tt
  else
    modify (record EvObserve);;
    emit "watching" [];;
    modify (set_running true);;
    match callback o with
    | VFun _ | VRedirect _ => call (callback o) EvCallback None
    | _ => ret tt
    end.

(** [watch.run] *)
Definition run (o : options) : M unit :=
  w ← get;
  let path := current_path o w in
  let watching := _watching w in
  emit "statechange" [path];;
  match watching with
  | None => throw (TypeError "cannot read properties of undefined")
  | Some rules => run_loop rules path
  end;;
  start_watching o.

(** The arguments of a call of [watch].  ([OneObject] lists the enumerable
    properties of any object: for an array, its indices.) *)
Inductive arguments : Type :=
| NoArgument
| OneObject (entries : list (jsstring * value))
| OneString (s : jsstring)
| OneOther
| Two (path : route) (handler : value).

(** [watch] *)
Definition watch (args : arguments) : M unit :=
  match args with
  | NoArgument => run no_options
  | OneObject entries => register_all entries
  | OneString s => run (mkOptions (Some s) VUndefined)
  | OneOther => throw (Error "Illage usage.")
  | Two path handler => register path handler
  end.

(** *** Observing a dispatch *)

(** The calls of middlewares and handlers among the events of a run. *)
Inductive callee : Type :=
| Middleware (f : nat)
| Handler (f : nat).

Definition call_of (e : event) : option callee :=
  match e with
  | EvMiddleware f _ => Some (Middleware f)
  | EvHandler f _ => Some (Handler f)
  | _ => None
  end.

Definition calls (evs : list event) : list callee := omap call_of evs.

(** How many times a body calls its continuation. *)
Fixpoint next_calls (acts : list action) : nat :=
  match acts with
  | [] => 0
  | CallNext :: tl => S (next_calls tl)
  | Act _ :: tl => next_calls tl
  end.

(** The calls expected of a chain: each middleware in turn, up to and
    including the first that does not call its continuation; the handler
    after the last one if all of them do. *)
Fixpoint chain_calls (mws : list jsfun) (h : jsfun) : list callee :=
  match mws with
  | [] => [Handler (fid h)]
  | m :: tl =>
      Middleware (fid m)
      :: (if next_calls (body m) =? 0 then [] else chain_calls tl h)
  end.

(** *** Notions used to state the properties of the router *)

(** Two routers that differ in their rule lists only. *)
Definition same_but_rules (w1 w2 : router) : Prop :=
  set_watching None w1 = set_watching None w2.


(** What an action of a body leaves unchanged. *)
Definition quiet (w w' : router) : Prop :=
  calls (history w') = calls (history w)
  /\ _i w' = _i w
  /\ _watchman_middlewares w' = _watchman_middlewares w.

End Router.

(* ===================================================================== *)
(** ** Navigation on a host without [onhashchange] *)
(* ===================================================================== *)
Module Navigation.
Import Chars Regex Compiler Router.

(** The state that the first run installs on such a host: the array
    [watch.hashChangeFuncs] (the variable [hashChangeFuncs] is the same
    array) and [watch.oldHref]. *)
Record poller : Type := mkPoller {
  hashChangeFuncs : list value;
  oldHref : jsstring
}.

(** [watch.hashChangeFuncs = []; watch.oldHref = global.location.href] *)
Definition install (href : jsstring) : poller := mkPoller [] href.

(** [global.addHashChange(func, before)] *)
Definition addHashChange (func before : value) (st : poller) : poller :=
  if is_function func then
    mkPoller (if truthy before then func :: hashChangeFuncs st
              else hashChangeFuncs st ++ [func])
             (oldHref st)
  else st.

(** The loop of [global.removeHashChange]: [i] goes from [length - 1] down
    to [0]; [n] is [i + 1]. *)
Fixpoint remove_loop (func : value) (n : nat) (funcs : list value)
  : list value :=
  match n with
  | 0 => funcs
  | S i =>
      remove_loop func i
        (if decide (funcs !! i = Some func)
         then splice (Z.of_nat i) 1 funcs
         else funcs)
  end.

(** [global.removeHashChange(func)] *)
Definition removeHashChange (func : value) (st : poller) : poller :=
  mkPoller (remove_loop func (length (hashChangeFuncs st)) (hashChangeFuncs st))
           (oldHref st).

(** The object handed to the functions:
    [{type: 'hashchange', newURL, oldURL}]. *)
Record hashchange : Type := mkHashChange {
  newURL : jsstring;
  oldURL : jsstring
}.

(** The function given to [setInterval], run with the host at [href]: the
    calls it makes, in order, each with its argument.  [watch.oldHref] is
    assigned before the loop and read when each argument is built.  The
    functions called are taken not to touch the array or [watch.oldHref]
    themselves. *)
Definition tick (href : jsstring) (st : poller)
  : list (value * hashchange) * poller :=
  let newHref := href in
  if bool_decide (oldHref st <> newHref) then
    let st' := mkPoller (hashChangeFuncs st) newHref in
    ((fun f => (f, mkHashChange newHref (oldHref st'))) <$> hashChangeFuncs st',
     st')
  else ([], st).

End Navigation.

(* ===================================================================== *)
(** ** Notions used to state further properties *)
(* ===================================================================== *)
Module Notions.
Import Chars Regex Compiler Router.

(** The listeners of a type: none for a type that was never used. *)
Definition listeners (type : string) (w : router) : list value :=
  default [] (events_of w !! type).

(** Two routers that differ in their listeners at most. *)
Definition same_but_events (w w' : router) : Prop :=
  set_events None w = set_events None w'.

(** The rules of a router: none before the first registration. *)
Definition rules_of (w : router) : list rule := default [] (_watching w).

(** What [createRule] stores for a handler. *)
Definition stored_handler (h : value) : value :=
  match h with
  | VStrObj target => VRedirect target
  | _ => h
  end.

(** [a] is the start of [s]. *)
Definition starts_with (a s : jsstring) : Prop := exists t, s = a ++ t.

(** What [createRule] makes of an entry of a mapping on the router [w]. *)
Definition created (w : router) (r : rule) (e : jsstring * value) : Prop :=
  fst (createRule (PString e.1) e.2 w) = Normal r.

(** The call of its handler that a rule owes to a path: none when the
    rule does not match. *)
Definition handler_call (p : jsstring) (r : rule) : option callee :=
  match exec (regexp r) p, handler r with
  | Some _, VFun h => Some (Handler (fid h))
  | _, _ => None
  end.

(** The calls expected of a chain whose entries are any values: a
    function is called and the chain goes on if it calls its continuation;
    an entry that is not truthy stands for the end of the list, and the
    handler is called; any other entry cannot be called. *)
Fixpoint chain_of_values (mws : list value) (h : jsfun) : list callee :=
  match mws with
  | [] => [Handler (fid h)]
  | VFun m :: tl =>
      Middleware (fid m)
      :: (if next_calls (body m) =? 0 then [] else chain_of_values tl h)
  | v :: tl => if truthy v then [] else [Handler (fid h)]
  end.

(** Every function in front of the first entry that is not one calls its
    continuation once at most. *)
Fixpoint at_most_once (mws : list value) : Prop :=
  match mws with
  | VFun m :: tl => next_calls (body m) <= 1 /\ at_most_once tl
  | _ => True
  end.

End Notions.

(* ===================================================================== *)
(** ** Notions used to state further properties of the compiler *)
(* ===================================================================== *)
Module PatternNotions.
Import Chars Regex Compiler Router.


(** The group that a [*] of a path becomes. *)
Definition star_group (k : nat) : regex :=
  RGroup k (RSeq (RQuant 0 None true RDot) REmpty).

(** The expression of a path of plain code units followed by a [*]. *)
Definition wildcard_regex (p : jsstring) : regex :=
  RSeq RStart (foldr RSeq (RSeq (star_group 1) (hash_tail 2)) (map RChar p)).

(** The expression of a hash route of plain code units: the one of a
    literal path without the anchor at the start. *)
Definition hash_regex (p : jsstring) : regex :=
  foldr RSeq (hash_tail 1) (map RChar p).


(** The expression of a run of pattern characters. *)
Definition chars_regex (p : jsstring) : regex :=
  foldr RSeq REmpty (map RChar p).

(** The tokens of plain alternatives separated by bars. *)
Fixpoint alt_tokens (l : list jsstring) : list token :=
  match l with
  | [] => []
  | [a] => map TChar a
  | a :: tl => map TChar a ++ TBar :: alt_tokens tl
  end.

(** The expression of an array of plain paths: the alternatives in group
    1, then the hash tail. *)
Definition alternation_regex (l : list jsstring) : regex :=
  RSeq RStart
       (RSeq (RGroup 1 (match map chars_regex l with
                        | [] => REmpty
                        | a :: more => alt_regex a more
                        end))
             (hash_tail 2)).






End PatternNotions.

(* ===================================================================== *)
(** ** Scenarios: the routers, rules and paths of the examples *)
(* ===================================================================== *)
Module Scenarios.
Import Chars Regex Compiler Router.

(** Three listeners, two of them registered for [statechange]. *)
Definition listener_a : value := VFun (mkFun 1 [Act 1]).
Definition listener_b : value := VFun (mkFun 2 [Act 2]).
Definition listener_c : value := VFun (mkFun 3 [Act 3]).

Definition two_listeners : router :=
  set_events (Some {[ "statechange" := [listener_a; listener_b] ]}) (fresh []).

(** Two handlers and three rules; [/user/42] matches the second rule and
    the third. *)
Definition show_user : value := VFun (mkFun 1 [Act 10]).
Definition show_any : value := VFun (mkFun 2 [Act 20]).

Definition compile_string (p : string) : compiled :=
  match pathToRegExp (PString (str p)) with
  | Ok c => c
  | Err _ => mkCompiled [] (mkRegExp REmpty false)
  end.

Definition home_rule : rule := mkRule (compile_string "/home") show_any.
Definition user_rule : rule := mkRule (compile_string "/user/:id") show_user.
Definition exact_rule : rule := mkRule (compile_string "/user/42") show_any.

Definition three_rules : router :=
  set_watching (Some [home_rule; user_rule; exact_rule]) (fresh []).

Definition to_user_42 : options := mkOptions (Some (str "/user/42")) VUndefined.

(** The handler of the target of a redirect. *)
Definition new_page : value := VFun (mkFun 7 [Act 70]).

(** A primitive string as the handler of [/old], a rule for [/new], then a
    dispatch of [/old]. *)
Definition redirect_primitive : M unit :=
  watch (Two (PString (str "/old")) (VStr (str "/new")));;
  watch (Two (PString (str "/new")) new_page);;
  watch (OneString (str "/old")).

(** The same with a [String] object. *)
Definition redirect_object : M unit :=
  watch (Two (PString (str "/old")) (VStrObj (str "/new")));;
  watch (Two (PString (str "/new")) new_page);;
  watch (OneString (str "/old")).

(** Register [/user/:id] on a fresh router and dispatch [target]. *)
Definition user_route (target : string) : M unit :=
  watch (Two (PString (str "/user/:id")) show_user);;
  watch (OneString (str target)).

(** A middleware that goes on, one that does not, one behind it. *)
Definition passes : jsfun := mkFun 11 [Act 1; CallNext; Act 2].
Definition stops : jsfun := mkFun 12 [Act 3].
Definition never_reached : jsfun := mkFun 13 [CallNext].

Definition with_middlewares : router :=
  set_middlewares (Some (VFun <$> [passes; stops; never_reached])) (fresh []).

(** A middleware that calls its continuation twice, in front of one that
    never calls it. *)
Definition twice : jsfun := mkFun 21 [CallNext; CallNext].
Definition silent : jsfun := mkFun 22 [].
Definition page : jsfun := mkFun 1 [Act 10].

(** [use(twice, silent)], a rule for [/a], a dispatch of [/a]. *)
Definition twice_then_silent : M unit :=
  use [VFun twice; VFun silent];;
  watch (Two (PString (str "/a")) (VFun page));;
  watch (OneString (str "/a")).




End Scenarios.

(* ===================================================================== *)
(** ** Further examples *)
(* ===================================================================== *)
Module Examples.
Import Chars Regex Compiler Router Navigation Notions PatternNotions Scenarios.

(** Two functions, each registered twice for [statechange]. *)
Definition listed_twice : router :=
  set_events
    (Some {[ "statechange" := [listener_a; listener_b; listener_a; listener_b] ]})
    (fresh []).

(** The three rules of [three_rules] and a listener of [watching]. *)
Definition awaited : router :=
  set_events (Some {[ "watching" := [listener_a] ]}) three_rules.

(** The options of a run that names a path and brings a callback. *)
Definition to_user_42_then (cb : value) : options :=
  mkOptions (Some (str "/user/42")) cb.


(** A middleware list with [undefined] in the second place. *)
Definition with_gap : router :=
  set_middlewares (Some [VFun passes; VUndefined; VFun never_reached])
                  (fresh []).

(** A mapping whose second path is not the source of an expression. *)
Definition broken_mapping : list (jsstring * value) :=
  [(str "/a", show_any); (str "/b(", show_any); (str "/c", show_any)].


(** The rule of the path ["*"] behind the three rules of [three_rules]. *)
Definition star_rule : rule :=
  mkRule (mkCompiled [] (mkRegExp (wildcard_regex []) true)) (VFun page).

Definition behind_three_rules : router :=
  set_watching (Some [home_rule; user_rule; exact_rule; star_rule]) (fresh []).

(** Two plain paths in an array whose first element is the base. *)
Definition app_paths : list jsstring := [str "/app"; str "/app/x"].

End Examples.

(* ===================================================================== *)
(** ** Properties of the matcher *)
(* ===================================================================== *)
Module RegexFacts.
Import Chars Regex.

Lemma suffix_tail {A} (a : A) (l k : list A) : suffix (a :: l) k -> suffix l k.
Proof. intros [pre ->]. exists (pre ++ [a]). by rewrite <- app_assoc. Qed.

Lemma suffix_elem {A} (a : A) (l k : list A) :
  suffix l k -> a ∈ l -> a ∈ k.
Proof. intros [pre ->] Ha. apply elem_of_app. by right. Qed.

(** A successful match has called the continuation, with success, on a
    state whose input is a suffix of the starting input. *)
Lemma repeat_matcher_cont (m : mstate -> cont -> option mstate) :
  (forall x c z, m x c = Some z ->
     exists y, c y = Some z /\ suffix (rest y) (rest x)) ->
  forall ids fuel lo hi greedy x c z,
    repeat_matcher m ids fuel lo hi greedy x c = Some z ->
    exists y, c y = Some z /\ suffix (rest y) (rest x).
Proof.
  intros Hm ids fuel.
  induction fuel as [|fuel IH]; intros lo hi greedy x c z H; [discriminate|].
  cbn in H.
  assert (Hiter : forall d0,
    d0 = (fun y : mstate =>
            if (lo =? 0) && (length (rest y) =? length (rest x)) then None
            else repeat_matcher m ids fuel (Nat.pred lo) (Nat.pred <$> hi)
                                greedy y c) ->
    m (mkState (prev x) (rest x) (cap_clear ids (caps x))) d0 = Some z ->
    exists y, c y = Some z /\ suffix (rest y) (rest x)).
  { intros d0 -> Hd. apply Hm in Hd as (y & Hy & Hs). cbn in Hs.
    destruct ((lo =? 0) && _); [discriminate|].
    apply IH in Hy as (y' & Hy' & Hs'). exists y'. split; [exact Hy'|].
    by etrans. }
  assert (Hhere : c x = Some z ->
                  exists y, c y = Some z /\ suffix (rest y) (rest x))
    by (intros Hc; exists x; by split).
  destruct hi as [[|hi]|].
  - by apply Hhere.
  - destruct (negb (lo =? 0)); [by eapply Hiter|].
    destruct greedy.
    + destruct (m _ _) eqn:E; [injection H as ->; by eapply Hiter|by apply Hhere].
    + destruct (c x) eqn:E; [by apply Hhere|by eapply Hiter].
  - destruct (negb (lo =? 0)); [by eapply Hiter|].
    destruct greedy.
    + destruct (m _ _) eqn:E; [injection H as ->; by eapply Hiter|by apply Hhere].
    + destruct (c x) eqn:E; [by apply Hhere|by eapply Hiter].
Qed.

Lemma step_cont (P : ascii -> bool) (x : mstate) (c : cont) (z : mstate) :
  step P x c = Some z ->
  exists ch tl, rest x = ch :: tl /\ P ch = true
                /\ c (mkState (Some ch) tl (caps x)) = Some z.
Proof.
  unfold step. destruct (rest x) as [|ch tl]; [discriminate|].
  destruct (P ch) eqn:E; [|discriminate]. eauto.
Qed.

Lemma matcher_quant (ic : bool) (lo : nat) (hi : option nat) (greedy : bool)
    (a : regex) (x : mstate) (c : cont) :
  matcher ic (RQuant lo hi greedy a) x c
  = repeat_matcher (matcher ic a) (group_ids a) (S (lo + length (rest x)))
                   lo hi greedy x c.
Proof. reflexivity. Qed.

Lemma matcher_cont (ic : bool) (r : regex) :
  forall x c z,
    matcher ic r x c = Some z ->
    exists y, c y = Some z /\ suffix (rest y) (rest x).
Proof.
  assert (Hstep : forall P x c z, step P x c = Some z ->
            exists y, c y = Some z /\ suffix (rest y) (rest x)).
  { intros P x c z H. apply step_cont in H as (ch & tl & Hr & _ & Hc).
    eexists; split; [exact Hc|]. rewrite Hr. cbn. by apply suffix_cons_r. }
  induction r as [| a | | inv items | a IHa b IHb | a IHa b IHb
                  | lo hi greedy a IHa | i a IHa | | | n];
    intros x c z H.
  - exists x. by split.
  - by eapply Hstep.
  - by eapply Hstep.
  - by eapply Hstep.
  - cbn in H.
    apply IHa in H as (y & Hy & Hs). apply IHb in Hy as (y' & Hy' & Hs').
    exists y'. split; [exact Hy'|by etrans].
  - cbn in H. destruct (matcher ic a x c) eqn:E.
    + injection H as ->. by apply IHa.
    + by apply IHb.
  - rewrite matcher_quant in H.
    exact (repeat_matcher_cont _ IHa _ _ _ _ _ _ _ _ H).
  - cbn in H.
    apply IHa in H as (y & Hy & Hs). eexists; split; [exact Hy|exact Hs].
  - cbn in H. destruct (prev x); [discriminate|]. exists x. by split.
  - cbn in H. destruct (rest x) eqn:E; [|discriminate]. exists x.
    rewrite E. by split.
  - cbn in H. destruct (xorb _ _); [|discriminate]. exists x. by split.
Qed.

(** *** The fuel of the matcher is enough *)

Lemma step_local (P : ascii -> bool) : local (step P).
Proof.
  intros x c1 c2 H. unfold step. destruct (rest x) as [|ch tl] eqn:Hr;
    [reflexivity|].
  destruct (P ch); [|reflexivity]. apply H. cbn. lia.
Qed.

(** With a local body, [repeat_matcher] gives the same result for any two
    amounts of fuel above [lo] plus the length of the input, and it is
    local itself. *)
Lemma repeat_matcher_fuel (m : mstate -> cont -> option mstate)
    (ids : list nat) :
  local m ->
  forall f1 f2 lo hi greedy x c1 c2,
    lo + length (rest x) < f1 ->
    lo + length (rest x) < f2 ->
    (forall y, length (rest y) <= length (rest x) -> c1 y = c2 y) ->
    repeat_matcher m ids f1 lo hi greedy x c1
    = repeat_matcher m ids f2 lo hi greedy x c2.
Proof.
  intros Hm. induction f1 as [|f1 IH]; intros f2 lo hi greedy x c1 c2 H1 H2 Hc;
    [lia|].
  destruct f2 as [|f2]; [lia|]. cbn.
  assert (Hx : c1 x = c2 x) by (by apply Hc).
  assert (Hd : m (mkState (prev x) (rest x) (cap_clear ids (caps x)))
                 (fun y =>
                    if (lo =? 0) && (length (rest y) =? length (rest x))
                    then None
                    else repeat_matcher m ids f1 (Nat.pred lo)
                           (Nat.pred <$> hi) greedy y c1)
               = m (mkState (prev x) (rest x) (cap_clear ids (caps x)))
                   (fun y =>
                      if (lo =? 0) && (length (rest y) =? length (rest x))
                      then None
                      else repeat_matcher m ids f2 (Nat.pred lo)
                             (Nat.pred <$> hi) greedy y c2)).
  { apply Hm. intros y Hy. cbn in Hy.
    destruct (lo =? 0) eqn:Hlo; cbn [andb].
    - apply Nat.eqb_eq in Hlo as ->.
      destruct (length (rest y) =? length (rest x)) eqn:He; [reflexivity|].
      apply Nat.eqb_neq in He.
      apply IH; [cbn; lia|cbn; lia|].
      intros y' Hy'. apply Hc. lia.
    - apply Nat.eqb_neq in Hlo.
      apply IH; [lia|lia|]. intros y' Hy'. apply Hc. lia. }
  destruct hi as [[|hi]|]; [exact Hx| |]; rewrite Hd, Hx; reflexivity.
Qed.

Lemma matcher_local (ic : bool) (r : regex) : local (matcher ic r).
Proof.
  induction r as [| a | | inv items | a IHa b IHb | a IHa b IHb
                  | lo hi greedy a IHa | i a IHa | | | n];
    intros x c1 c2 H; try (by apply step_local).
  - cbn. by apply H.
  - cbn. apply IHa. intros y Hy. apply IHb. intros y' Hy'. apply H. lia.
  - cbn. by rewrite (IHa x c1 c2 H), (IHb x c1 c2 H).
  - rewrite !matcher_quant. apply repeat_matcher_fuel; [exact IHa|lia|lia|exact H].
  - cbn. apply IHa. intros y Hy. by apply H.
  - cbn. destruct (prev x); [reflexivity|by apply H].
  - cbn. destruct (rest x) eqn:Hr; [|reflexivity]. apply H. by rewrite Hr.
  - cbn. destruct (xorb _ _); [by apply H|reflexivity].
Qed.

(** More fuel than [matcher] gives to a repetition changes nothing. *)
Lemma matcher_fuel_enough (ic : bool) (lo : nat) (hi : option nat)
    (greedy : bool) (a : regex) (x : mstate) (c : cont) (extra : nat) :
  repeat_matcher (matcher ic a) (group_ids a)
                 (S (lo + length (rest x)) + extra) lo hi greedy x c
  = matcher ic (RQuant lo hi greedy a) x c.
Proof.
  rewrite matcher_quant.
  apply repeat_matcher_fuel; [apply matcher_local|lia|lia|done].
Qed.

Lemma demands_char (a : ascii) : demands false (RChar a) a.
Proof.
  intros x c z H. cbn in H. apply step_cont in H as (ch & tl & -> & He & _).
  apply Ascii.eqb_eq in He as <-. apply elem_of_cons. by left.
Qed.

Lemma demands_seq_l (ic : bool) (r1 r2 : regex) (a : ascii) :
  demands ic r1 a -> demands ic (RSeq r1 r2) a.
Proof. intros H x c z Hm. cbn in Hm. by eapply H. Qed.

Lemma demands_seq_r (ic : bool) (r1 r2 : regex) (a : ascii) :
  demands ic r2 a -> demands ic (RSeq r1 r2) a.
Proof.
  intros H x c z Hm. cbn in Hm.
  apply matcher_cont in Hm as (y & Hy & Hs). apply H in Hy.
  by eapply suffix_elem.
Qed.


Lemma demands_no_match (re : RegExp) (a : ascii) (p : option ascii)
    (s : jsstring) :
  ignoreCase re = false -> demands false (pattern re) a -> a ∉ s ->
  match_at re p s = None.
Proof.
  intros Hic Hd Ha. unfold match_at. rewrite Hic.
  destruct (matcher _ _ _ _) eqn:E; [|reflexivity].
  apply Hd in E. contradiction.
Qed.

(** Where the expression matches at no position, a global replacement
    copies its input. *)
Lemma replace_pieces_no_match (re : RegExp) (s : jsstring) :
  (forall p t, suffix t s -> match_at re p t = None) ->
  forall fuel p, length s < fuel ->
    replace_pieces fuel re p s = Copy <$> s.
Proof.
  induction s as [|ch tl IH]; intros Hno fuel p Hf;
    (destruct fuel as [|fuel]; [lia|]); cbn.
  - by rewrite Hno.
  - rewrite Hno by done. f_equal. apply IH; [|cbn in Hf; lia].
    intros p' t Ht. apply Hno. by apply suffix_cons_r.
Qed.

Lemma match_at_after (re : RegExp) (p : option ascii) (s : jsstring)
    (m : match_result) :
  match_at re p s = Some m -> suffix (after m) s.
Proof.
  unfold match_at. destruct (matcher _ _ _ _) as [z|] eqn:E; [|discriminate].
  intros [= <-]. cbn.
  apply matcher_cont in E as (y & [= ->] & Hs). exact Hs.
Qed.

(** Every step of a global replacement moves on by one code unit at least:
    the fuel [S (length s)] given by [replace_with] is enough. *)
Lemma replace_pieces_fuel (re : RegExp) :
  forall f1 f2 p s,
    length s < f1 -> length s < f2 ->
    replace_pieces f1 re p s = replace_pieces f2 re p s.
Proof.
  induction f1 as [|f1 IH]; intros f2 p s H1 H2; [lia|].
  destruct f2 as [|f2]; [lia|]. cbn.
  destruct (match_at re p s) as [m|] eqn:Hm.
  - destruct (length (after m) =? length s) eqn:He.
    + destruct s as [|ch tl]; [reflexivity|].
      do 2 f_equal. apply IH; cbn in *; lia.
    + apply match_at_after, suffix_length in Hm.
      apply Nat.eqb_neq in He. f_equal. apply IH; lia.
  - destruct s as [|ch tl]; [reflexivity|]. f_equal. apply IH; cbn in *; lia.
Qed.

Lemma render_copy {St} (f : match_result -> St -> jsstring * St)
    (s : jsstring) (st : St) :
  render f (Copy <$> s) st = (s, st).
Proof. induction s as [|ch tl IH]; [reflexivity|]. cbn. by rewrite IH. Qed.

Lemma replace_with_absent {St} (re : RegExp) (a : ascii)
    (f : match_result -> St -> jsstring * St) (s : jsstring) (st : St) :
  ignoreCase re = false -> demands false (pattern re) a -> a ∉ s ->
  replace_with re f s st = (s, st).
Proof.
  intros Hic Hd Ha. unfold replace_with.
  rewrite replace_pieces_no_match; [apply render_copy| |lia].
  intros p t Ht. eapply demands_no_match; [exact Hic|exact Hd|].
  intros Hin. apply Ha. by eapply suffix_elem.
Qed.

Lemma replace_all_absent (re : RegExp) (a : ascii) (by_ s : jsstring) :
  ignoreCase re = false -> demands false (pattern re) a -> a ∉ s ->
  replace_all re by_ s = s.
Proof.
  intros Hic Hd Ha. unfold replace_all.
  by rewrite (replace_with_absent re a _ s tt Hic Hd Ha).
Qed.

(** *** The lexer and the parser on pattern characters *)

Lemma lex_run_app (st : lstate) (a b : jsstring) :
  lex_run st (a ++ b)
  = match lex_run st a with
    | Ok st' => lex_run st' b
    | Err e => Err e
    end.
Proof.
  revert st. induction a as [|ch a IH]; intros st; [reflexivity|].
  cbn. destruct (lex_step st ch); [apply IH|reflexivity].
Qed.

Lemma parse_run_app (st : pstate) (a b : list token) :
  parse_run st (a ++ b)
  = match parse_run st a with
    | Ok st' => parse_run st' b
    | Err e => Err e
    end.
Proof.
  revert st. induction a as [|t a IH]; intros st; [reflexivity|].
  cbn. destruct (parse_step st t); [apply IH|reflexivity].
Qed.

Lemma lex_run_plain (p : jsstring) :
  Forall lexes_plain p ->
  forall toks,
    lex_run (LNormal, toks) p = Ok (LNormal, rev (map TChar p) ++ toks).
Proof.
  induction 1 as [|c p Hc _ IH]; intros toks; [reflexivity|].
  cbn. rewrite Hc, IH. cbn. by rewrite <- app_assoc.
Qed.

Lemma parse_run_chars (p : jsstring) (st : pstate) :
  parse_run st (map TChar p) = Ok (push_chars p st).
Proof.
  revert st. induction p as [|c p IH]; intros [[g al sq] ps n]; [reflexivity|].
  cbn. rewrite IH. unfold push_chars. cbn. by rewrite <- app_assoc.
Qed.

Lemma is_plain_lexes (c : ascii) : Compiler.is_plain c = true -> lexes_plain c.
Proof.
  intros H toks. revert H.
  destruct c as [[] [] [] [] [] [] [] []]; vm_compute; intros H;
    try discriminate H; reflexivity.
Qed.

Lemma lex_run_hash (toks : list token) :
  lex_run (LNormal, toks) (str "((#.+)?)$")
  = Ok (LNormal, rev hash_tokens ++ toks).
Proof. reflexivity. Qed.

Lemma parse_run_hash (st : pstate) :
  parse_run st hash_tokens
  = Ok (mkPState
          (mkFrame (f_group (top st)) (f_alts (top st))
             ((REnd, false)
              :: (RGroup (S (opened st))
                    (RSeq (RQuant 0 (Some 1) true
                             (RGroup (S (S (opened st)))
                                (RSeq (RChar "#")
                                   (RSeq (RQuant 1 None true RDot) REmpty))))
                          REmpty), true)
              :: f_seq (top st)))
          (parents st) (S (S (opened st)))).
Proof. destruct st as [[g al sq] ps n]. reflexivity. Qed.

(** The expression of the source ["^" ++ p ++ "((#.+)?)$"] for plain [p]. *)
Lemma RegExp_new_literal (p : jsstring) (ic : bool) :
  Forall (fun c => Compiler.is_plain c = true) p ->
  RegExp_new (str "^" ++ p ++ str "((#.+)?)$") ic
  = Ok (mkRegExp (Compiler.literal_regex p) ic).
Proof.
  intros Hp.
  assert (Hlex : lex (str "^" ++ p ++ str "((#.+)?)$")
                 = Ok (TStart :: map TChar p ++ hash_tokens)).
  { unfold lex. cbn [str list_ascii_of_string app lex_run lex_step lex_normal].
    change (lex_normal "^" []) with (Ok (A:=lstate) (LNormal, [TStart])).
    cbv iota. rewrite lex_run_app, lex_run_plain, lex_run_hash.
    - rewrite !rev_app_distr, !rev_involutive. reflexivity.
    - eapply Forall_impl; [exact Hp|]. apply is_plain_lexes. }
  unfold RegExp_new. rewrite Hlex. unfold parse.
  cbn [parse_run parse_step top parents opened push_term f_group f_alts f_seq].
  rewrite parse_run_app, parse_run_chars, parse_run_hash.
  unfold frame_regex, seq_regex, push_chars, push_term. cbn.
  rewrite !rev_app_distr, rev_involutive. cbn.
  rewrite !map_app, map_map. cbn.
  rewrite !foldr_app. reflexivity.
Qed.

(** *** Anchored expressions *)

Lemma search_after_start (re : RegExp) (r : regex) :
  pattern re = RSeq RStart r ->
  forall s ch, search re (Some ch) s = None.
Proof.
  intros Hre. induction s as [|a s IH]; intros ch; cbn;
    unfold match_at; rewrite Hre; cbn; [reflexivity|apply IH].
Qed.

(** An expression that starts with [^] matches at the first position or
    nowhere. *)
Lemma exec_anchored (re : RegExp) (r : regex) (s : jsstring) :
  pattern re = RSeq RStart r ->
  exec re s = match_at re None s.
Proof.
  intros Hre. unfold exec. destruct s as [|a s]; cbn.
  - by destruct (match_at re None []).
  - destruct (match_at re None (a :: s)); [reflexivity|].
    by apply search_after_start with r.
Qed.

Lemma match_at_is_Some (re : RegExp) (p : option ascii) (s : jsstring) :
  is_Some (match_at re p s)
  <-> is_Some (matcher (ignoreCase re) (pattern re) (mkState p s []) Some).
Proof.
  unfold match_at. destruct (matcher _ _ _ _); split; intros [? H];
    try discriminate H; eauto.
Qed.

(** *** A run of pattern characters *)

Lemma matcher_chars (ic : bool) (r : regex) (p : jsstring) :
  forall x c,
    matcher ic (foldr RSeq r (map RChar p)) x c
    = match consume ic p x with
      | Some y => matcher ic r y c
      | None => None
      end.
Proof.
  induction p as [|a p IH]; intros x c; [reflexivity|].
  cbn. unfold step. destruct (rest x) as [|ch tl]; [reflexivity|].
  destruct (Ascii.eqb _ _); [apply IH|reflexivity].
Qed.

Lemma consume_sound (p : jsstring) :
  forall x y, consume true p x = Some y ->
    exists q, rest x = q ++ rest y /\ same_letters q p.
Proof.
  induction p as [|a p IH]; intros x y H; cbn in H.
  - injection H as <-. by exists [].
  - destruct (rest x) as [|ch tl] eqn:Hr; [discriminate|].
    destruct (Ascii.eqb _ _) eqn:He; [|discriminate].
    apply IH in H as (q & Hq & Hs). cbn in Hq.
    exists (ch :: q). split; [by rewrite Hq|].
    unfold same_letters in *. cbn. apply Ascii.eqb_eq in He.
    by rewrite He, Hs.
Qed.

Lemma consume_complete (p : jsstring) :
  forall x q t, rest x = q ++ t -> same_letters q p ->
    exists y, consume true p x = Some y /\ rest y = t.
Proof.
  induction p as [|a p IH]; intros x q t Hr Hs.
  - destruct q; [|discriminate Hs]. exists x. by split.
  - destruct q as [|ch q]; [discriminate Hs|].
    unfold same_letters in Hs. cbn in Hs. injection Hs as Hc Hs.
    cbn. rewrite Hr. cbn. rewrite Hc, Ascii.eqb_refl.
    by eapply IH.
Qed.

(** *** The hash tail *)

Lemma repeat_matcher_unfold (m : mstate -> cont -> option mstate)
    (ids : list nat) (fuel lo : nat) (greedy : bool) (x : mstate) (c : cont) :
  repeat_matcher m ids (S fuel) lo None greedy x c
  = let d : cont := fun y =>
      if (lo =? 0) && (length (rest y) =? length (rest x)) then None
      else repeat_matcher m ids fuel (Nat.pred lo) None greedy y c in
    let xr := mkState (prev x) (rest x) (cap_clear ids (caps x)) in
    if negb (lo =? 0) then m xr d
    else if greedy then
      match m xr d with Some z => Some z | None => c x end
    else
      match c x with Some z => Some z | None => m xr d end.
Proof. reflexivity. Qed.

Lemma is_Some_orelse {A} (a b : option A) :
  is_Some (match a with Some z => Some z | None => b end)
  <-> is_Some a \/ is_Some b.
Proof.
  destruct a; split; eauto.
  - intros [[? H]|H]; [discriminate H|exact H].
Qed.

Lemma is_Some_None {A} : is_Some (@None A) <-> False.
Proof. split; [intros [? H]; discriminate H|tauto]. Qed.

(** [.+], greedy, in front of a continuation that succeeds exactly at the
    end of the input: the rest of the input must be one line terminator
    free run, of [lo] code units at least. *)
Lemma dot_run_to_end (ic : bool) (D : cont) (fuel : nat) :
  forall lo x,
    lo <= 1 ->
    lo + length (rest x) < fuel ->
    (forall y, length (rest y) <= length (rest x) ->
               (is_Some (D y) <-> rest y = [])) ->
    is_Some (repeat_matcher (matcher ic RDot) [] fuel lo None true x D)
    <-> lo <= length (rest x)
        /\ Forall (fun ch => is_line_terminator ch = false) (rest x).
Proof.
  set (M := matcher ic RDot).
  assert (HM : forall x c,
            M x c = step (fun ch => negb (is_line_terminator ch)) x c)
    by reflexivity.
  clearbody M.
  induction fuel as [|fuel IH]; intros lo x Hlo Hf HD; [lia|].
  rewrite repeat_matcher_unfold. cbv zeta. rewrite !HM. unfold step.
  cbn [rest prev caps].
  destruct (rest x) as [|ch tl] eqn:Hr.
  - destruct lo as [|lo]; cbn [negb Nat.eqb].
    + rewrite (HD x) by (rewrite Hr; done).
      rewrite Hr. split; [intros _; split; [done|constructor]|done].
    + rewrite is_Some_None. split; [tauto|]. cbn. lia.
  - assert (Hrec : forall lo',
              lo' = 0 ->
              is_Some (repeat_matcher M [] fuel lo' None true
                         (mkState (Some ch) tl (cap_clear [] (caps x))) D)
              <-> Forall (fun ch => is_line_terminator ch = false) tl).
    { intros lo' ->. rewrite IH; cbn [rest]; [|lia|cbn in Hf; lia|].
      - split; [tauto|]. intros H. split; [lia|done].
      - intros y Hy. apply HD. cbn. lia. }
    assert (HDx : is_Some (D x) <-> False).
    { rewrite (HD x) by (rewrite Hr; done). by rewrite Hr. }
    destruct lo as [|[|lo]]; [| |lia]; cbn [negb Nat.eqb Nat.pred andb].
    + replace (length tl =? length (ch :: tl)) with false
        by (symmetry; apply Nat.eqb_neq; cbn; lia).
      destruct (is_line_terminator ch) eqn:Hlt; cbn [negb].
      * rewrite HDx.
        split; [tauto|]. intros [_ H]. apply Forall_cons in H as [H _].
        congruence.
      * rewrite is_Some_orelse, HDx, Hrec by done.
        split.
        -- intros [H|[]]. split; [lia|by constructor].
        -- intros [_ H]. apply Forall_cons in H as [_ H]. by left.
    + destruct (is_line_terminator ch) eqn:Hlt; cbn [negb].
      * rewrite is_Some_None. split; [tauto|].
        intros [_ H]. apply Forall_cons in H as [H _]. congruence.
      * rewrite Hrec by done. split.
        -- intros H. split; [cbn; lia|by constructor].
        -- intros [_ H]. by apply Forall_cons in H as [_ H].
Qed.

Lemma hash_only_itself (ic : bool) (ch : ascii) :
  Ascii.eqb (canonicalize ic "#") (canonicalize ic ch) = true -> ch = "#"%char.
Proof.
  destruct ic; destruct ch as [[] [] [] [] [] [] [] []]; vm_compute;
    intros H; try discriminate H; reflexivity.
Qed.

(** The text ["#.+"] in front of a continuation that succeeds exactly at
    the end of the input. *)
Lemma hash_body_matches (ic : bool) (x : mstate) (D : cont) :
  (forall y, length (rest y) < length (rest x) ->
             (is_Some (D y) <-> rest y = [])) ->
  is_Some (matcher ic (RSeq (RChar "#")
                         (RSeq (RQuant 1 None true RDot) REmpty)) x D)
  <-> exists f, rest x = "#"%char :: f /\ f <> []
                /\ Forall (fun ch => is_line_terminator ch = false) f.
Proof.
  intros HD.
  change (matcher ic (RSeq (RChar "#") (RSeq (RQuant 1 None true RDot) REmpty))
            x D)
    with (step (fun ch => Ascii.eqb (canonicalize ic "#") (canonicalize ic ch))
            x (fun y => matcher ic (RQuant 1 None true RDot) y
                          (fun y' => D y'))).
  unfold step. destruct (rest x) as [|ch tl] eqn:Hr.
  - rewrite is_Some_None. split; [tauto|]. by intros (f & H & _).
  - destruct (Ascii.eqb _ _) eqn:He.
    + apply hash_only_itself in He as ->.
      rewrite matcher_quant. cbn [rest].
      rewrite dot_run_to_end; cbn [rest]; [|lia|lia|].
      * split.
        -- intros [Hl Hf]. exists tl. split; [done|]. split; [|done].
           intros ->. cbn in Hl. lia.
        -- intros (f & [= <-] & Hne & Hf). split; [|done].
           destruct tl; [done|cbn; lia].
      * intros y Hy. apply HD. cbn. lia.
    + rewrite is_Some_None. split; [tauto|].
      intros (f & [= -> _] & _). destruct ic; discriminate He.
Qed.

(** A greedy [?]: one turn of the body if it gets somewhere, else none. *)
Lemma optional_greedy (m : mstate -> cont -> option mstate) (ids : list nat)
    (fuel : nat) (x : mstate) (c : cont) :
  repeat_matcher m ids (S (S fuel)) 0 (Some 1) true x c
  = match m (mkState (prev x) (rest x) (cap_clear ids (caps x)))
            (fun y => if length (rest y) =? length (rest x) then None
                      else c y) with
    | Some z => Some z
    | None => c x
    end.
Proof. reflexivity. Qed.

(** The hash tail, in front of the end of the match, accepts the empty
    rest and the fragments. *)
Lemma hash_tail_matches (ic : bool) (k : nat) (y : mstate) :
  is_Some (matcher ic (Compiler.hash_tail k) y Some)
  <-> Compiler.is_fragment (rest y).
Proof.
  unfold Compiler.hash_tail, Compiler.is_fragment.
  set (B := RSeq (RChar "#") (RSeq (RQuant 1 None true RDot) REmpty)).
  cbn [matcher].
  destruct (rest y) as [|ch tl] eqn:Hr.
  - cbn. rewrite Hr. cbn. split; [by left|by eexists].
  - cbn [length Nat.add]. rewrite optional_greedy, is_Some_orelse.
    cbn [matcher]. subst B. rewrite hash_body_matches.
    + simpl. rewrite Hr. rewrite is_Some_None.
      split; [intros [H|[]]; by right|].
      intros [H|H]; [discriminate H|by left].
    + intros y' Hy'. simpl in *.
      replace (length (rest y') =? length (rest y)) with false
        by (symmetry; apply Nat.eqb_neq; lia).
      destruct (rest y'); split; done.
Qed.

(** *** Steps of a global replacement *)





(** *** Greedy runs *)



End RegexFacts.

(* ===================================================================== *)
(** ** Properties of the pattern compiler *)
(* ===================================================================== *)
Module CompilerFacts.
Import Chars Regex Compiler Scenarios RegexFacts.

(** *** The expression literals *)

(** The syntax trees given for the literals of the source are those the
    constructor builds from their texts. *)
Lemma literals_as_written :
  RegExp_new (str "^#") false = Ok re_hash
  /\ RegExp_new (str "([\/\(]+):") false = Ok re_colon
  /\ RegExp_new (str "\(\?:(\w+)((\(.*?\))*)") false = Ok re_param
  /\ RegExp_new (str "\(|\)") false = Ok re_paren
  /\ RegExp_new (str "\*") false = Ok re_star.
Proof.
  repeat match goal with |- _ /\ _ => split end; vm_compute; reflexivity.
Qed.

(** *** Paths without a colon: no parameter is read *)

Lemma re_colon_demands : demands false (pattern re_colon) ":".
Proof. apply demands_seq_r, demands_seq_l, demands_char. Qed.

Lemma re_param_demands : demands false (pattern re_param) ":".
Proof.
  apply demands_seq_r, demands_seq_r, demands_seq_l, demands_char.
Qed.

Lemma re_star_demands : demands false (pattern re_star) "*".
Proof. apply demands_seq_l, demands_char. Qed.

(** Without a colon the two parameter replacements change nothing and push
    no key. *)
Lemma rewrite_path_no_colon (s : jsstring) :
  ":"%char ∉ s ->
  rewrite_path s
  = ((if isHashRouter s then [] else str "^")
       ++ replace_all re_star (str "(.*)")
            (replace_first (str "))") (str ")") s)
       ++ str "((#.+)?)$", []).
Proof.
  intros Hs. unfold rewrite_path.
  rewrite (replace_all_absent re_colon ":" _ s eq_refl re_colon_demands Hs).
  rewrite (replace_with_absent re_param ":" _ s [] eq_refl re_param_demands Hs).
  reflexivity.
Qed.





(** *** Literal paths *)

Lemma is_plain_not_special (c : ascii) :
  is_plain c = true -> c <> ":"%char /\ c <> ")"%char /\ c <> "*"%char.
Proof.
  destruct c as [[] [] [] [] [] [] [] []]; vm_compute; intros H;
    try discriminate H; repeat split; discriminate.
Qed.

Lemma plain_absent (a : ascii) (p : jsstring) :
  is_plain a = false -> Forall (fun c => is_plain c = true) p -> a ∉ p.
Proof.
  intros Ha Hp Hin. rewrite Forall_forall in Hp.
  apply Hp in Hin. congruence.
Qed.

Lemma replace_first_absent (a : ascii) (what by_ s : jsstring) :
  a ∉ s -> replace_first (a :: what) by_ s = s.
Proof.
  induction s as [|c s IH]; intros Ha; [reflexivity|].
  apply not_elem_of_cons in Ha as [Hne Ha]. cbn.
  destruct (Ascii.eqb a c) eqn:E; [by apply Ascii.eqb_eq in E|].
  cbn. by rewrite IH.
Qed.

(** C5, as the code has it.  A path [p] of plain code units that is not a
    hash route compiles, with no key, to [literal_regex p] under the [i]
    flag; the paths that match are those that start with [p] up to letter
    case and go on with nothing or with a fragment ([#] and at least one
    code unit, none a line terminator). *)
Theorem literal_pattern_matches (p : jsstring) :
  Forall (fun c => is_plain c = true) p ->
  isHashRouter p = false ->
  pathToRegExp (PString p)
  = Ok (mkCompiled [] (mkRegExp (literal_regex p) true))
  /\ forall path,
       is_Some (exec (mkRegExp (literal_regex p) true) path)
       <-> exists q t, path = q ++ t /\ same_letters q p /\ is_fragment t.
Proof.
  intros Hp Hh. split.
  - unfold pathToRegExp, compile_text.
    rewrite rewrite_path_no_colon by (by apply plain_absent).
    change (str "))") with (")"%char :: str ")").
    rewrite Hh, replace_first_absent by (by apply plain_absent).
    rewrite (replace_all_absent re_star "*" _ p eq_refl re_star_demands)
      by (by apply plain_absent).
    by rewrite (RegExp_new_literal p true Hp).
  - intros path.
    rewrite (exec_anchored (mkRegExp (literal_regex p) true)
               (foldr RSeq (hash_tail 1) (map RChar p)) path eq_refl),
            match_at_is_Some.
    cbn [pattern ignoreCase literal_regex matcher prev].
    rewrite matcher_chars. split.
    + destruct (consume true p _) as [y|] eqn:Hc;
        [|intros [? H]; discriminate H].
      intros Hm. apply hash_tail_matches in Hm.
      apply consume_sound in Hc as (q & Hq & Hs). cbn in Hq.
      by exists q, (rest y).
    + intros (q & t & -> & Hs & Ht).
      destruct (consume_complete p (mkState None (q ++ t) []) q t eq_refl Hs)
        as (y & -> & Hy).
      apply hash_tail_matches. by rewrite Hy.
Qed.

Lemma literal_pattern_matches_witness :
  pathToRegExp (PString (str "/home"))
  = Ok (mkCompiled [] (mkRegExp (literal_regex (str "/home")) true))
  /\ forall path,
       is_Some (exec (mkRegExp (literal_regex (str "/home")) true) path)
       <-> exists q t, path = q ++ t /\ same_letters q (str "/home")
                       /\ is_fragment t.
Proof.
  apply (literal_pattern_matches (str "/home")).
  - repeat constructor.
  - reflexivity.
Defined.

(** C5 as stated fails: the expression is built with the [i] flag, so the
    pattern [/a] matches the path [/A], which is neither [/a] nor [/a]
    followed by a fragment. *)
Lemma literal_pattern_ignores_case :
  exists c,
    pathToRegExp (PString (str "/a")) = Ok c
    /\ is_Some (exec (regexp c) (str "/A"))
    /\ str "/A" <> str "/a"
    /\ forall f, str "/A" <> str "/a" ++ str "#" ++ f.
Proof.
  eexists. split; [vm_compute; reflexivity|].
  split; [vm_compute; by eexists|]. split; discriminate.
Qed.

(** Further departures of the same kind: a [.] of the pattern stands for
    any code unit, a [#] alone is no fragment, and a pattern that starts
    with [#] is not tied to the start of the path. *)
Lemma literal_pattern_other_departures :
  (exists c, pathToRegExp (PString (str "/a.b")) = Ok c
             /\ is_Some (exec (regexp c) (str "/axb")))
  /\ (exists c, pathToRegExp (PString (str "/a")) = Ok c
                /\ exec (regexp c) (str "/a#") = None)
  /\ (exists c, pathToRegExp (PString (str "#a")) = Ok c
                /\ is_Some (exec (regexp c) (str "/x#a"))).
Proof.
  split; [|split]; eexists; (split; [vm_compute; reflexivity|]);
    vm_compute; by eauto.
Qed.

(** *** Paths of segments: the first replacement *)









(** *** Paths of segments: the second replacement *)












(** *** Paths of segments: the last two replacements *)

Lemma replace_first_skip (what by_ : jsstring) (c : ascii) (s : jsstring) :
  c <> ")"%char ->
  replace_first (")"%char :: what) by_ (c :: s)
  = c :: replace_first (")"%char :: what) by_ s.
Proof.
  intros Hc. cbn -[Ascii.eqb].
  assert (E : Ascii.eqb ")" c = false) by (apply Ascii.eqb_neq; congruence).
  by rewrite E.
Qed.

Lemma replace_first_skip_run (what by_ w s : jsstring) :
  Forall (fun c => c <> ")"%char) w ->
  replace_first (")"%char :: what) by_ (w ++ s)
  = w ++ replace_first (")"%char :: what) by_ s.
Proof.
  induction 1 as [|c w Hc _ IH]; [reflexivity|].
  cbn [app]. by rewrite replace_first_skip, IH.
Qed.








(** *** Paths of segments: the expression *)











End CompilerFacts.

(* ===================================================================== *)
(** ** Properties of the router *)
(* ===================================================================== *)
Module RouterFacts.
Import Chars Regex Compiler Router Scenarios.

Lemma indexOf_absent {A} `{EqDecision A} (x : A) (l : list A) :
  x ∉ l -> indexOf x l = (-1)%Z.
Proof.
  induction l as [|y tl IH]; intros Hx; [reflexivity|].
  apply not_elem_of_cons in Hx as [Hne Htl]. cbn.
  destruct (decide (y = x)) as [->|_]; [contradiction|].
  rewrite (IH Htl). reflexivity.
Qed.

Lemma indexOf_nonneg {A} `{EqDecision A} (x : A) (l : list A) :
  x ∈ l -> (0 <= indexOf x l)%Z.
Proof.
  induction l as [|y tl IH]; intros Hx; [by apply elem_of_nil in Hx|].
  cbn. destruct (decide (y = x)) as [->|Hne]; [lia|].
  apply elem_of_cons in Hx as [->|Htl]; [contradiction|].
  specialize (IH Htl). destruct (indexOf x tl <? 0)%Z eqn:E; lia.
Qed.

Lemma splice_minus_one {A} (l : list A) :
  l <> [] -> splice (-1) 1 l = removelast l.
Proof.
  intros Hl. destruct (exists_last Hl) as (l' & a & ->).
  rewrite removelast_last. unfold splice.
  rewrite length_app. cbn [length].
  replace (-1 <? 0)%Z with true by reflexivity.
  replace (Z.max (Z.of_nat (length l' + 1) + -1) 0) with (Z.of_nat (length l'))
    by lia.
  replace (Z.min (Z.max 1 0) (Z.of_nat (length l' + 1) - Z.of_nat (length l')))
    with 1%Z by lia.
  rewrite Nat2Z.id.
  replace (Z.to_nat (Z.of_nat (length l') + 1)) with (length (l' ++ [a]))
    by (rewrite length_app; cbn; lia).
  rewrite drop_all, take_app_length. apply app_nil_r.
Qed.

(** [watch.on] puts the listener at the end of the list of its type. *)
Lemma on_appends (type : string) (f : value) (w : router) :
  is_function f = true ->
  exists w', on type f w = (Normal tt, w')
    /\ events_of w' !! type = Some (default [] (events_of w !! type) ++ [f]).
Proof.
  intros Hf. unfold on, mbind, M_bind, bind, modify. rewrite Hf.
  eexists; split; [reflexivity|].
  unfold events_of; cbn. apply lookup_insert_eq.
Qed.

(** C10.  When the listener list of [type] is not empty and [f] is a
    function that is not in it, [removeEventListener(type, f)] does not
    leave the list as it was: [indexOf] answers -1 and [splice(-1, 1)]
    drops the last element, the listener added most recently. *)
Theorem removeEventListener_unregistered_drops_last
    (type : string) (f : value) (hs : list value) (w : router) :
  is_function f = true ->
  events_of w !! type = Some hs ->
  hs <> [] ->
  f ∉ hs ->
  exists w',
    removeEventListener type f w = (Normal tt, w')
    /\ events_of w' !! type = Some (removelast hs)
    /\ removelast hs <> hs
    /\ forall hs' g, hs = hs' ++ [g] -> events_of w' !! type = Some hs'.
Proof.
  intros Hf Hget Hne Hnot.
  unfold removeEventListener, mbind, M_bind, bind, modify. rewrite Hf.
  eexists; split; [reflexivity|].
  assert (Hev : events_of (set_events (Some (events_of w)) w) = events_of w)
    by reflexivity.
  rewrite Hev, Hget, (indexOf_absent _ _ Hnot), (splice_minus_one _ Hne).
  assert (Hl : events_of
            (set_events (Some (<[type:=removelast hs]> (events_of w)))
               (set_events (Some (events_of w)) w)) !! type
          = Some (removelast hs)).
  { unfold events_of at 1; cbn. apply lookup_insert_eq. }
  split; [exact Hl|]. split.
  - intros Heq. apply (f_equal length) in Heq.
    destruct (exists_last Hne) as (l' & a & ->).
    rewrite removelast_last, length_app in Heq. cbn in Heq. lia.
  - intros hs' g ->. rewrite Hl, removelast_last. reflexivity.
Qed.

Lemma removeEventListener_unregistered_witness :
  exists w',
    removeEventListener "statechange" listener_c two_listeners = (Normal tt, w')
    /\ events_of w' !! "statechange" = Some (removelast [listener_a; listener_b])
    /\ removelast [listener_a; listener_b] <> [listener_a; listener_b]
    /\ forall hs' g, [listener_a; listener_b] = hs' ++ [g] ->
         events_of w' !! "statechange" = Some hs'.
Proof.
  apply (removeEventListener_unregistered_drops_last
           "statechange" listener_c [listener_a; listener_b] two_listeners).
  - reflexivity.
  - reflexivity.
  - discriminate.
  - intros Hin. repeat (apply elem_of_cons in Hin as [Hin|Hin];
                        [discriminate Hin|]).
    by apply elem_of_nil in Hin.
Defined.

(** *** Dispatch: the first rule that matches *)

Lemma run_loop_skips (pre rest : list rule) (p : jsstring) (w : router) :
  Forall (fun q : rule => exec (regexp q) p = None) pre ->
  run_loop (pre ++ rest) p w = run_loop rest p w.
Proof.
  induction 1 as [|q pre Hq _ IH]; [reflexivity|].
  cbn. rewrite Hq. exact IH.
Qed.


Lemma layer_unfold (fuel : nat) (ctx : context) (hit : value) (index : nat) :
  layer fuel ctx hit index
  = (w ← get;
     let curr := default VUndefined
                   (default [] (_watchman_middlewares w) !! index) in
     if truthy curr then
       match fuel with
       | 0 => throw Exhausted
       | S fuel' =>
           call curr (fun i => EvMiddleware i ctx)
             (Some (modify (fun w => set_i (S (_i w)) w);;
                    w' ← get;
                    layer fuel' ctx hit (_i w')))
       end
     else call hit (fun i => EvHandler i ctx) None).
Proof. destruct fuel; reflexivity. Qed.

(** *** What a dispatch sees of the rule list *)


















(** The older copies of the library (version 0.0.1) run the chain of every
    rule that matches: the [break] came with the current source. *)
Lemma older_loop_runs_every_match :
  exists w ctx1 ctx2,
    run_loop_0_0_1 [home_rule; user_rule; exact_rule] (str "/user/42")
                   (fresh [])
    = (Normal tt, w)
    /\ history w = [EvHandler 1 ctx1; EvAct 10; EvHandler 2 ctx2; EvAct 20].
Proof.
  eexists. eexists. eexists. split; vm_compute; reflexivity.
Qed.

(** *** Dispatch without a match *)


(** C6 (the code departs from it).  On a router on which [watch] was never
    called with two arguments, [watch._watching] does not exist and
    [watch.run] throws a [TypeError] when it reads its [length], whatever
    the path; nothing is called and [running] stays unset. *)
Theorem run_before_any_rule_throws (loc : jsstring) (o : options) :
  exists w',
    run o (fresh loc)
    = (Throw (TypeError "cannot read properties of undefined"), w')
    /\ history w' = [] /\ running w' = false.
Proof.
  eexists. split; [vm_compute; reflexivity|]. split; reflexivity.
Qed.

(** *** Registration of an expression *)

(** [pathToRegExp] alone takes an expression as it is, with no keys. *)
Lemma pathToRegExp_regexp (re : RegExp) :
  pathToRegExp (PRegExp re) = Ok (mkCompiled [] re).
Proof. reflexivity. Qed.

(** C7 (the code departs from it).  [createRule] calls [path.indexOf]
    before [pathToRegExp] is reached; an expression has no [indexOf], so
    registering one throws a [TypeError] and adds no rule. *)
Theorem register_regexp_throws (re : RegExp) (h : value) (w : router) :
  exists w',
    watch (Two (PRegExp re) h) w
    = (Throw (TypeError "path.indexOf is not a function"), w')
    /\ _watching w' = Some (default [] (_watching w)).
Proof.
  eexists. split; [reflexivity|]. destruct (_watching w); reflexivity.
Qed.

(** An array pattern does not reach [pathToRegExp] as an array either,
    unless its first element is the base: [createRule] looks the base up
    with the array's [indexOf] and concatenates, which turns the array into
    the text of its elements separated by commas. *)
Lemma register_array_joins_with_commas :
  exists w c,
    watch (Two (PArray [str "/a"; str "/b"]) show_user) (fresh [])
    = (Normal tt, w)
    /\ pathToRegExp (PString (str "/a,/b")) = Ok c
    /\ _watching w = Some [mkRule c show_user].
Proof.
  eexists. eexists. split; [|split]; vm_compute; reflexivity.
Qed.

(** *** Redirect handlers *)

(** C8 (the code departs from it).  A primitive string is not an instance
    of [String]: it is stored as the handler itself, and the dispatch of its
    path throws when it is called.  A [String] object is wrapped, but the
    wrapper runs [watch({url: target})], which registers a rule for the
    path [url] with the target as its handler: the handler of the target
    path is not called, and the rule list has grown by one. *)
Theorem redirect_handler_does_not_dispatch :
  (exists w c,
     redirect_primitive (fresh []) = (Throw (TypeError "not a function"), w)
     /\ handler <$> (default [] (_watching w) !! 0) = Some (VStr (str "/new"))
     /\ pathToRegExp (PString (str "/old")) = Ok c
     /\ history w = [])
  /\ (exists w c,
     redirect_object (fresh []) = (Normal tt, w)
     /\ history w = [EvRedirect (str "/new"); EvObserve]
     /\ pathToRegExp (PString (str "url")) = Ok c
     /\ handler <$> (default [] (_watching w) !! 0) = Some (VRedirect (str "/new"))
     /\ default [] (_watching w) !! 2 = Some (mkRule c (VRedirect (str "/new")))
     /\ length (default [] (_watching w)) = 3).
Proof.
  split; eexists; eexists;
    repeat match goal with |- _ /\ _ => split end;
    vm_compute; reflexivity.
Qed.

(** *** The pattern [/user/:id] *)

(** C3.  The pattern [/user/:id] compiles to a rule with the single key
    [id].  The path [/user/42] matches and [params.id] is ["42"]; the path
    [/user] matches as well and [params.id] is [undefined].  A dispatch of
    either path calls the handler with these parameters. *)
Theorem user_id_parameter :
  exists c,
    pathToRegExp (PString (str "/user/:id")) = Ok c
    /\ keys c = [str "id"]
    /\ (exists ps,
          paramsParser (str "/user/42") (keys c) (regexp c) = Some ps
          /\ param ps (str "id") = Some (str "42"))
    /\ (exists ps,
          paramsParser (str "/user") (keys c) (regexp c) = Some ps
          /\ param ps (str "id") = None)
    /\ (exists w ctx,
          user_route "/user/42" (fresh []) = (Normal tt, w)
          /\ history w = [EvHandler 1 ctx; EvAct 10; EvObserve]
          /\ path ctx = str "/user/42"
          /\ param (params ctx) (str "id") = Some (str "42"))
    /\ (exists w ctx,
          user_route "/user" (fresh []) = (Normal tt, w)
          /\ history w = [EvHandler 1 ctx; EvAct 10; EvObserve]
          /\ path ctx = str "/user"
          /\ param (params ctx) (str "id") = None).
Proof.
  eexists. split; [vm_compute; reflexivity|].
  split; [reflexivity|].
  split; [eexists; split; vm_compute; reflexivity|].
  split; [eexists; split; vm_compute; reflexivity|].
  split.
  - eexists. eexists. split; [vm_compute; reflexivity|].
    split; [vm_compute; reflexivity|]. split; vm_compute; reflexivity.
  - eexists. eexists. split; [vm_compute; reflexivity|].
    split; [vm_compute; reflexivity|]. split; vm_compute; reflexivity.
Qed.

(** *** The middleware chain *)

Lemma bind_inv {A B} (m : M A) (k : A -> M B) (w : router)
    (c : completion B) (w' : router) :
  (m ≫= k) w = (c, w') ->
  (exists a w1, m w = (Normal a, w1) /\ k a w1 = (c, w'))
  \/ (exists e, m w = (Throw e, w') /\ c = Throw e).
Proof.
  unfold mbind, M_bind, bind. destruct (m w) as [[a|e] w1]; intros H.
  - left. eauto.
  - right. injection H as <- <-. eauto.
Qed.

(** A property of the router that the actions of a user function keep and
    that its continuation keeps is kept by the function's body; no body
    exhausts the fuel if its continuation does not. *)
Lemma run_body_keeps (I : router -> Prop) (next : option (M unit)) :
  (forall l w, I w -> I (record (EvAct l) w)) ->
  (forall k w c w', next = Some k -> I w -> k w = (c, w') ->
                    I w' /\ c <> Throw Exhausted) ->
  forall acts w c w',
    I w -> run_body acts next w = (c, w') -> I w' /\ c <> Throw Exhausted.
Proof.
  intros Hact Hnext. induction acts as [|a acts IH]; intros w c w' Hw Hrun.
  - injection Hrun as <- <-. split; [exact Hw|discriminate].
  - destruct a as [l|]; cbn in Hrun.
    + apply bind_inv in Hrun as [(? & w1 & H1 & H2)|(e & H1 & _)];
        [|discriminate H1].
      injection H1 as _ <-. eapply IH; [|exact H2]. by apply Hact.
    + destruct next as [k|].
      * apply bind_inv in Hrun as [([] & w1 & H1 & H2)|(e & H1 & ->)].
        -- destruct (Hnext k w _ _ eq_refl Hw H1) as [Hw1 _].
           eapply IH; [exact Hw1|exact H2].
        -- exact (Hnext k w _ _ eq_refl Hw H1).
      * injection Hrun as <- <-. split; [exact Hw|discriminate].
Qed.

(** Registration touches neither the middlewares nor the counter [_i] nor
    the events. *)
Lemma register_keeps (p : route) (h : value) (w : router)
    (c : completion unit) (w' : router) :
  register p h w = (c, w') ->
  _watchman_middlewares w' = _watchman_middlewares w
  /\ _i w' = _i w /\ log w' = log w /\ c <> Throw Exhausted.
Proof.
  unfold register, createRule, mbind, M_bind, bind, modify, get; cbn.
  destruct (with_base _ p) as [p'|e] eqn:Hb; cbn.
  - destruct (pathToRegExp p') as [cp|e]; cbn.
    + intros [= <- <-]. by repeat split.
    + intros [= <- <-]. by repeat split.
  - intros [= <- <-]. repeat split; try done.
    destruct p as [s|l|re]; cbn in Hb.
    + by destruct (_ && _).
    + by destruct (negb _).
    + by injection Hb as <-.
Qed.

Lemma register_all_keeps (entries : list (jsstring * value)) (w : router)
    (c : completion unit) (w' : router) :
  register_all entries w = (c, w') ->
  _watchman_middlewares w' = _watchman_middlewares w
  /\ _i w' = _i w /\ log w' = log w /\ c <> Throw Exhausted.
Proof.
  revert w. induction entries as [|[p h] tl IH]; intros w Hr.
  - injection Hr as <- <-. by repeat split.
  - cbn in Hr. apply bind_inv in Hr as [([] & w1 & H1 & H2)|(e & H1 & ->)].
    + apply register_keeps in H1 as (Ha & Hb & Hc & _).
      apply IH in H2 as (Ha' & Hb' & Hc' & Hd).
      repeat split; [congruence..|exact Hd].
    + by apply register_keeps in H1.
Qed.

(** A call keeps what its continuation keeps, for properties of the
    counter and the middlewares. *)
Lemma call_keeps (P : nat -> option (list value) -> Prop)
    (v : value) (ev : nat -> event) (next : option (M unit)) :
  (forall k w c w', next = Some k ->
     P (_i w) (_watchman_middlewares w) -> k w = (c, w') ->
     P (_i w') (_watchman_middlewares w') /\ c <> Throw Exhausted) ->
  forall w c w',
    P (_i w) (_watchman_middlewares w) ->
    call v ev next w = (c, w') ->
    P (_i w') (_watchman_middlewares w') /\ c <> Throw Exhausted.
Proof.
  intros Hk w c w' Hw. unfold call.
  destruct v as [| | |f|target]; try (intros [= <- <-]; by split).
  - intros Hb.
    apply bind_inv in Hb as [([] & w1 & H1 & H2)|(e & H1 & _)];
      [|discriminate H1].
    injection H1 as <-.
    refine (run_body_keeps (fun w1 => P (_i w1) (_watchman_middlewares w1))
              next _ _ _ _ _ _ _ H2); [tauto|exact Hk|exact Hw].
  - intros Hb.
    apply bind_inv in Hb as [([] & w1 & H1 & H2)|(e & H1 & _)];
      [|discriminate H1].
    injection H1 as <-.
    apply register_all_keeps in H2 as (-> & -> & _ & ?). by split.
Qed.

(** [layer] is always entered with [index = _i]; a continuation raises [_i]
    before it enters [layer] again, so the fuel [length middlewares] given
    by [watch.run] is never exhausted. *)
Lemma layer_fuel_suffices (ctx : context) (hit : value) (fuel : nat) :
  forall w c w',
    length (default [] (_watchman_middlewares w)) <= fuel + _i w ->
    layer fuel ctx hit (_i w) w = (c, w') ->
    (_i w <= _i w' /\ _watchman_middlewares w' = _watchman_middlewares w)
    /\ c <> Throw Exhausted.
Proof.
  induction fuel as [|fuel IH]; intros w c w' Hlen Hl.
  - cbn in Hl. unfold mbind, M_bind, bind, get in Hl.
    destruct (default [] (_watchman_middlewares w) !! _i w) as [v|] eqn:Hv.
    + apply lookup_lt_Some in Hv. lia.
    + cbn in Hl.
      refine (call_keeps
                (fun i m => _i w <= i /\ m = _watchman_middlewares w)
                _ _ _ _ _ _ _ _ Hl); [discriminate|by split].
  - cbn in Hl. unfold mbind at 1, M_bind at 1, bind at 1, get at 1 in Hl.
    destruct (truthy _).
    + refine (call_keeps
                (fun i m => _i w <= i /\ m = _watchman_middlewares w)
                _ _ _ _ _ _ _ _ Hl); [|by split].
      intros k w1 c1 w1' [= <-] [Hi Hm] Hk.
      apply bind_inv in Hk as [([] & w2 & H1 & H2)|(e & H1 & _)];
        [|discriminate H1].
      injection H1 as <-.
      apply bind_inv in H2 as [(w3 & w4 & H3 & H4)|(e & H3 & _)];
        [|discriminate H3].
      injection H3 as <- <-.
      apply IH in H4 as [[Hi' Hm'] Hc]; cbn in *.
      * split; [split; [lia|congruence]|exact Hc].
      * rewrite Hm. lia.
    + refine (call_keeps
                (fun i m => _i w <= i /\ m = _watchman_middlewares w)
                _ _ _ _ _ _ _ _ Hl); [discriminate|by split].
Qed.

Lemma calls_record (e : event) (w : router) :
  calls (history (record e w)) = calls (history w) ++ calls [e].
Proof. unfold history, calls. cbn [log record rev]. apply omap_app. Qed.

Lemma quiet_refl (w : router) : quiet w w.
Proof. by repeat split. Qed.

Lemma quiet_act (l : nat) (w w' : router) :
  quiet w w' -> quiet w (record (EvAct l) w').
Proof.
  intros (Hc & Hi & Hm). repeat split; [|exact Hi|exact Hm].
  rewrite calls_record, Hc. apply app_nil_r.
Qed.

(** A body that never calls its continuation completes in silence. *)
Lemma run_body_quiet (next : option (M unit)) (acts : list action) :
  next_calls acts = 0 ->
  forall w, exists w', run_body acts next w = (Normal tt, w') /\ quiet w w'.
Proof.
  induction acts as [|[l|] acts IH]; intros Hn w.
  - exists w. split; [reflexivity|apply quiet_refl].
  - destruct (IH Hn (record (EvAct l) w)) as (w' & Hr & Hc & Hi & Hm).
    exists w'. split.
    + cbn. unfold mbind, M_bind, bind, modify. exact Hr.
    + repeat split; [|exact Hi|exact Hm].
      rewrite Hc, calls_record. apply app_nil_r.
  - discriminate Hn.
Qed.

(** A body that calls its continuation once: its actions before the call,
    the continuation, and (when that completes) its actions after. *)
Lemma run_body_once (k : M unit) (acts : list action) :
  next_calls acts = 1 ->
  forall w c w',
    run_body acts (Some k) w = (c, w') ->
    exists w1 c1 w2,
      quiet w w1 /\ k w1 = (c1, w2)
      /\ calls (history w') = calls (history w2).
Proof.
  induction acts as [|[l|] acts IH]; intros Hn w c w' Hr.
  - discriminate Hn.
  - cbn in Hr. unfold mbind, M_bind, bind, modify in Hr.
    destruct (IH Hn _ _ _ Hr) as (w1 & c1 & w2 & (Hc & Hi & Hm) & Hk & Hpost).
    exists w1, c1, w2. repeat split; try done.
    rewrite Hc, calls_record. apply app_nil_r.
  - cbn in Hr. injection Hn as Hn.
    apply bind_inv in Hr as [([] & w2 & H1 & H2)|(e & H1 & ->)].
    + exists w, (Normal tt), w2. split; [apply quiet_refl|]. split; [exact H1|].
      destruct (run_body_quiet (Some k) acts Hn w2) as (w3 & H3 & Hq & _).
      rewrite H2 in H3. injection H3 as _ <-. exact Hq.
    + exists w, (Throw e), w'. split; [apply quiet_refl|]. by split.
Qed.

(** The calls of a handler's body add nothing to the calls of the run. *)
Lemma run_handler_calls (h : jsfun) (ctx : context) (w : router)
    (c : completion unit) (w' : router) :
  call (VFun h) (fun i => EvHandler i ctx) None w = (c, w') ->
  calls (history w') = calls (history w) ++ [Handler (fid h)].
Proof.
  unfold call. intros Hb.
  apply bind_inv in Hb as [([] & w1 & H1 & H2)|(e & H1 & _)];
    [|discriminate H1].
  injection H1 as <-.
  refine (proj1 (run_body_keeps
            (fun w1 => calls (history w1)
                       = calls (history w) ++ [Handler (fid h)])
            None _ _ _ _ _ _ _ H2)).
  - intros l w0 H0. rewrite calls_record, H0. apply app_nil_r.
  - discriminate.
  - apply calls_record.
Qed.

Lemma middleware_at (done rest : list jsfun) (w : router) :
  _watchman_middlewares w = Some (VFun <$> (done ++ rest)) ->
  default VUndefined (default [] (_watchman_middlewares w) !! length done)
  = match rest with [] => VUndefined | m :: _ => VFun m end.
Proof.
  intros ->. cbn [default from_option id].
  rewrite fmap_app.
  rewrite lookup_app_r by (rewrite length_fmap; lia).
  rewrite length_fmap, Nat.sub_diag. by destruct rest.
Qed.

Lemma layer_chain (ctx : context) (h : jsfun) (rest : list jsfun) :
  forall (done : list jsfun) (fuel : nat) (w : router)
         (c : completion unit) (w' : router),
    _watchman_middlewares w = Some (VFun <$> (done ++ rest)) ->
    _i w = length done ->
    length rest <= fuel ->
    Forall (fun m => next_calls (body m) <= 1) rest ->
    layer fuel ctx (VFun h) (length done) w = (c, w') ->
    calls (history w') = calls (history w) ++ chain_calls rest h.
Proof.
  induction rest as [|m rest IH]; intros done fuel w c w' Hm Hi Hf Honce Hl;
    rewrite layer_unfold in Hl;
    unfold mbind at 1, M_bind at 1, bind at 1, get at 1 in Hl;
    cbv zeta in Hl; rewrite (middleware_at _ _ _ Hm) in Hl.
  - cbn [truthy] in Hl. exact (run_handler_calls h ctx w c w' Hl).
  - cbn [truthy] in Hl.
    destruct fuel as [|fuel]; [cbn in Hf; lia|]. unfold call in Hl.
    apply bind_inv in Hl as [([] & w0 & H1 & H2)|(e & H1 & _)];
      [|discriminate H1].
    injection H1 as <-.
    apply Forall_cons in Honce as [Hone Honce].
    cbn [chain_calls].
    destruct (next_calls (body m)) as [|[|n]] eqn:Hn; [| |lia].
    + destruct (run_body_quiet
                  (Some (modify (fun w => set_i (S (_i w)) w);;
                         w' ← get; layer fuel ctx (VFun h) (_i w')))
                  (body m) Hn (record (EvMiddleware (fid m) ctx) w))
        as (w3 & H3 & Hq & _).
      rewrite H2 in H3. injection H3 as _ <-.
      rewrite Hq, calls_record. reflexivity.
    + destruct (run_body_once _ _ Hn _ _ _ H2)
        as (w1 & c1 & w2 & (Hc1 & Hi1 & Hm1) & Hk & Hpost).
      apply bind_inv in Hk as [([] & w3 & H3 & H4)|(e & H3 & _)];
        [|discriminate H3].
      injection H3 as <-.
      apply bind_inv in H4 as [(w4 & w5 & H5 & H6)|(e & H5 & _)];
        [|discriminate H5].
      injection H5 as <- <-.
      cbn [_i set_i record] in H6. rewrite Hi1 in H6. cbn [_i record] in H6.
      rewrite Hi in H6.
      replace (S (length done)) with (length (done ++ [m])) in H6
        by (rewrite length_app; cbn; lia).
      apply IH in H6.
      * rewrite Hpost, H6.
        change (calls (history (set_i (length (done ++ [m])) w1)))
          with (calls (history w1)).
        rewrite Hc1, calls_record, <- app_assoc. reflexivity.
      * change (_watchman_middlewares (set_i (length (done ++ [m])) w1))
          with (_watchman_middlewares w1).
        rewrite Hm1. cbn [_watchman_middlewares record].
        rewrite Hm, <- app_assoc. reflexivity.
      * reflexivity.
      * cbn in Hf. lia.
      * exact Honce.
Qed.

(** When every middleware calls its continuation, all of them are called
    in order and the handler after the last. *)
Lemma chain_calls_all (mws : list jsfun) (h : jsfun) :
  Forall (fun m => next_calls (body m) <> 0) mws ->
  chain_calls mws h = (Middleware ∘ fid <$> mws) ++ [Handler (fid h)].
Proof.
  induction 1 as [|m mws Hm _ IH]; [reflexivity|].
  cbn. destruct (next_calls (body m)); [done|]. cbn. by rewrite IH.
Qed.

(** The first middleware that does not call its continuation is the last
    function called: no later middleware, no handler. *)
Lemma chain_calls_stops (pre post : list jsfun) (m h : jsfun) :
  Forall (fun m => next_calls (body m) <> 0) pre ->
  next_calls (body m) = 0 ->
  chain_calls (pre ++ m :: post) h
  = (Middleware ∘ fid <$> pre) ++ [Middleware (fid m)].
Proof.
  intros Hpre Hm. induction Hpre as [|x pre Hx _ IH].
  - cbn. by rewrite Hm.
  - cbn. destruct (next_calls (body x)); [done|]. cbn. by rewrite IH.
Qed.

(** C4, as the code has it.  With middlewares [mws] that each call their
    continuation at most once and a rule that matches with a function [h]
    as its handler, the functions called by the dispatch are, in this
    order: the middlewares up to the first that does not call its
    continuation; the handler after them if every middleware calls it. *)
Theorem middleware_chain_in_order
    (r : rule) (p : jsstring) (mws : list jsfun) (h : jsfun) (w : router) :
  _watchman_middlewares w = Some (VFun <$> mws) ->
  Forall (fun m => next_calls (body m) <= 1) mws ->
  handler r = VFun h ->
  is_Some (exec (regexp r) p) ->
  calls (history (hit_rule r p w).2)
  = calls (history w) ++ chain_calls mws h.
Proof.
  intros Hm Honce Hh [m Hex].
  unfold hit_rule, paramsParser. rewrite Hex, Hh.
  unfold mbind at 1, M_bind at 1, bind at 1, get at 1. rewrite Hm.
  unfold mbind, M_bind, bind, modify.
  destruct (layer _ _ _ 0 (set_i 0 w)) as [c w'] eqn:Hl.
  apply (layer_chain _ h mws [] (length (VFun <$> mws))) in Hl.
  - destruct c; exact Hl.
  - exact Hm.
  - reflexivity.
  - by rewrite length_fmap.
  - exact Honce.
Qed.

Lemma middleware_chain_in_order_witness :
  calls (history (hit_rule user_rule (str "/user/42") with_middlewares).2)
  = calls (history with_middlewares)
    ++ chain_calls [passes; stops; never_reached] (mkFun 1 [Act 10]).
Proof.
  apply (middleware_chain_in_order user_rule (str "/user/42")
           [passes; stops; never_reached] (mkFun 1 [Act 10]) with_middlewares).
  - reflexivity.
  - repeat constructor.
  - reflexivity.
  - vm_compute. eexists. reflexivity.
Defined.

(** C4 as stated fails: [silent] never calls its continuation, and yet the
    handler is called, by the second call that [twice] makes of its own
    continuation (the counter [_i] is shared by all continuations). *)
Lemma middleware_called_twice_reaches_handler :
  next_calls (body silent) = 0
  /\ exists w ctx,
       twice_then_silent (fresh []) = (Normal tt, w)
       /\ history w = [EvMiddleware 21 ctx; EvMiddleware 22 ctx;
                       EvHandler 1 ctx; EvAct 10; EvObserve].
Proof.
  split; [reflexivity|]. eexists. eexists.
  split; vm_compute; reflexivity.
Qed.

End RouterFacts.

(* ===================================================================== *)
(** ** Properties of the listeners *)
(* ===================================================================== *)

Module EventFacts.
Import Chars Regex Compiler Router Notions Scenarios Examples RouterFacts.

Lemma events_of_set (E : gmap string (list value)) (w : router) :
  events_of (set_events (Some E) w) = E.
Proof. reflexivity. Qed.

Lemma indexOf_first {A} `{EqDecision A} (x : A) (l1 l2 : list A) :
  x ∉ l1 -> indexOf x (l1 ++ x :: l2) = Z.of_nat (length l1).
Proof.
  induction l1 as [|y l1 IH]; intros Hx; cbn.
  - by rewrite decide_True.
  - apply not_elem_of_cons in Hx as [Hne Hx].
    rewrite decide_False by congruence. rewrite (IH Hx).
    destruct (_ <? 0)%Z eqn:E; lia.
Qed.

Lemma splice_one {A} (l1 l2 : list A) (x : A) :
  splice (Z.of_nat (length l1)) 1 (l1 ++ x :: l2) = l1 ++ l2.
Proof.
  unfold splice. rewrite length_app. cbn [length].
  replace (Z.of_nat (length l1) <? 0)%Z with false
    by (symmetry; apply Z.ltb_ge; lia).
  replace (Z.min (Z.of_nat (length l1)) (Z.of_nat (length l1 + S (length l2))))
    with (Z.of_nat (length l1)) by lia.
  replace (Z.min (Z.max 1 0)
             (Z.of_nat (length l1 + S (length l2)) - Z.of_nat (length l1)))
    with 1%Z by lia.
  rewrite Nat2Z.id.
  replace (Z.to_nat (Z.of_nat (length l1) + 1)) with (length l1 + 1) by lia.
  rewrite take_app_length.
  rewrite <- drop_drop, drop_app_length. reflexivity.
Qed.

(** X1.  [removeEventListener(type, f)] takes the first occurrence of [f] out
    of the list of [type] and nothing else: the listeners before and after
    it keep their order, a second registration of [f] stays, and the lists
    of the other types are as they were. *)
Theorem removeEventListener_removes_first
    (type : string) (f : value) (l1 l2 : list value) (w : router) :
  is_function f = true ->
  events_of w !! type = Some (l1 ++ f :: l2) ->
  f ∉ l1 ->
  exists w',
    removeEventListener type f w = (Normal tt, w')
    /\ events_of w' = <[type := l1 ++ l2]> (events_of w)
    /\ same_but_events w w'.
Proof.
  intros Hf Hget Hnot.
  unfold removeEventListener, mbind, M_bind, bind, modify. rewrite Hf.
  eexists; split; [reflexivity|].
  change (events_of (set_events (Some (events_of w)) w)) with (events_of w).
  rewrite Hget, (indexOf_first _ _ _ Hnot), splice_one.
  split; reflexivity.
Qed.

Lemma removeEventListener_removes_first_witness :
  exists w',
    removeEventListener "statechange" listener_b listed_twice = (Normal tt, w')
    /\ events_of w'
       = <["statechange" := [listener_a] ++ [listener_a; listener_b]]>
           (events_of listed_twice)
    /\ same_but_events listed_twice w'.
Proof.
  apply (removeEventListener_removes_first
           "statechange" listener_b [listener_a] [listener_a; listener_b]
           listed_twice).
  - reflexivity.
  - reflexivity.
  - intros Hin. apply elem_of_cons in Hin as [Hin|Hin]; [discriminate Hin|].
    by apply elem_of_nil in Hin.
Defined.



(** X3.  A listener that is not a function is refused by [on] and by
    [removeEventListener] with the same [TypeError], and the listeners of
    every type stay as they were. *)
Theorem listener_must_be_function (type : string) (v : value) (w : router) :
  is_function v = false ->
  exists w',
    on type v w = (Throw listener_error, w')
    /\ removeEventListener type v w = (Throw listener_error, w')
    /\ events_of w' = events_of w
    /\ same_but_events w w'.
Proof.
  intros Hv. unfold on, removeEventListener, mbind, M_bind, bind, modify.
  rewrite Hv. eexists. repeat split.
Qed.

Lemma listener_must_be_function_witness :
  exists w',
    on "statechange" (VStr (str "f")) listed_twice = (Throw listener_error, w')
    /\ removeEventListener "statechange" (VStr (str "f")) listed_twice
       = (Throw listener_error, w')
    /\ events_of w' = events_of listed_twice
    /\ same_but_events listed_twice w'.
Proof.
  apply (listener_must_be_function "statechange" (VStr (str "f")) listed_twice).
  reflexivity.
Defined.



End EventFacts.

(* ===================================================================== *)
(** ** Properties of a run *)
(* ===================================================================== *)
Module DispatchFacts.
Import Chars Regex Compiler Router Notions Scenarios Examples RouterFacts.
Import EventFacts.

(** *** What a dispatch keeps

    A property of the router that holds whatever the events, the counter
    and the rule list are is kept by everything a dispatch does. *)
Section Keeps.
Variable I : router -> Prop.
Hypothesis I_record : forall e w, I w -> I (record e w).
Hypothesis I_i : forall n w, I w -> I (set_i n w).
Hypothesis I_watching : forall v w, I w -> I (set_watching v w).

Lemma register_keeps_I (p : route) (h : value) (w : router)
    (c : completion unit) (w' : router) :
  I w -> register p h w = (c, w') -> I w'.
Proof.
  intros Hw. unfold register, createRule, mbind, M_bind, bind, modify, get; cbn.
  destruct (with_base _ p) as [p'|e]; cbn.
  - destruct (pathToRegExp p') as [cp|e]; cbn; intros [= <- <-];
      repeat apply I_watching; exact Hw.
  - intros [= <- <-]. by apply I_watching.
Qed.

Lemma register_all_keeps_I (entries : list (jsstring * value)) :
  forall w c w', I w -> register_all entries w = (c, w') -> I w'.
Proof.
  induction entries as [|[p h] tl IH]; intros w c w' Hw Hr.
  - by injection Hr as <- <-.
  - cbn in Hr. apply bind_inv in Hr as [([] & w1 & H1 & H2)|(e & H1 & ->)].
    + eapply IH; [|exact H2]. by eapply register_keeps_I.
    + by eapply register_keeps_I.
Qed.

Lemma run_body_keeps_I (next : option (M unit)) :
  (forall k w c w', next = Some k -> I w -> k w = (c, w') -> I w') ->
  forall acts w c w', I w -> run_body acts next w = (c, w') -> I w'.
Proof.
  intros Hnext. induction acts as [|a acts IH]; intros w c w' Hw Hrun.
  - by injection Hrun as <- <-.
  - destruct a as [l|]; cbn in Hrun.
    + apply bind_inv in Hrun as [(? & w1 & H1 & H2)|(e & H1 & _)];
        [|discriminate H1].
      injection H1 as _ <-. eapply IH; [|exact H2]. by apply I_record.
    + destruct next as [k|].
      * apply bind_inv in Hrun as [([] & w1 & H1 & H2)|(e & H1 & ->)].
        -- eapply IH; [|exact H2]. exact (Hnext k w _ _ eq_refl Hw H1).
        -- exact (Hnext k w _ _ eq_refl Hw H1).
      * by injection Hrun as <- <-.
Qed.

Lemma call_keeps_I (v : value) (ev : nat -> event) (next : option (M unit)) :
  (forall k w c w', next = Some k -> I w -> k w = (c, w') -> I w') ->
  forall w c w', I w -> call v ev next w = (c, w') -> I w'.
Proof.
  intros Hk w c w' Hw. unfold call.
  destruct v as [| | |f|target]; try (by intros [= <- <-]).
  - intros Hb.
    apply bind_inv in Hb as [([] & w1 & H1 & H2)|(e & H1 & _)];
      [|discriminate H1].
    injection H1 as <-.
    eapply run_body_keeps_I; [exact Hk| |exact H2]. by apply I_record.
  - intros Hb.
    apply bind_inv in Hb as [([] & w1 & H1 & H2)|(e & H1 & _)];
      [|discriminate H1].
    injection H1 as <-.
    eapply register_all_keeps_I; [|exact H2]. by apply I_record.
Qed.

Lemma layer_keeps_I (ctx : context) (hit : value) (fuel : nat) :
  forall index w c w', I w -> layer fuel ctx hit index w = (c, w') -> I w'.
Proof.
  induction fuel as [|fuel IH]; intros index w c w' Hw Hl;
    rewrite layer_unfold in Hl;
    unfold mbind at 1, M_bind at 1, bind at 1, get at 1 in Hl;
    cbv zeta in Hl; destruct (truthy _).
  - unfold throw in Hl. by injection Hl as <- <-.
  - refine (call_keeps_I _ _ _ _ _ _ _ Hw Hl). discriminate.
  - refine (call_keeps_I _ _ _ _ _ _ _ Hw Hl).
    intros k w1 c1 w1' [= <-] Hw1 Hk.
    apply bind_inv in Hk as [([] & w2 & H1 & H2)|(e & H1 & _)];
      [|discriminate H1].
    injection H1 as <-.
    apply bind_inv in H2 as [(w3 & w4 & H3 & H4)|(e & H3 & _)];
      [|discriminate H3].
    injection H3 as <- <-.
    eapply IH; [|exact H4]. by apply I_i.
  - refine (call_keeps_I _ _ _ _ _ _ _ Hw Hl). discriminate.
Qed.

Lemma hit_rule_keeps_I (r : rule) (p : jsstring) (w : router)
    (c : completion unit) (w' : router) :
  I w -> hit_rule r p w = (c, w') -> I w'.
Proof.
  intros Hw. unfold hit_rule.
  destruct (paramsParser _ _ _) as [ps|]; [|by intros [= <- <-]].
  unfold mbind at 1, M_bind at 1, bind at 1, get at 1.
  destruct (_watchman_middlewares w) as [mws|].
  - unfold mbind, M_bind, bind, modify. intros Hl.
    eapply layer_keeps_I; [|exact Hl]. by apply I_i.
  - intros Hc. refine (call_keeps_I _ _ _ _ _ _ _ Hw Hc). discriminate.
Qed.

Lemma run_loop_keeps_I (rules : list rule) (p : jsstring) (w : router)
    (c : completion unit) (w' : router) :
  I w -> run_loop rules p w = (c, w') -> I w'.
Proof.
  intros Hw. induction rules as [|r tl IH]; cbn.
  - by intros [= <- <-].
  - destruct (exec _ _); [by apply hit_rule_keeps_I|exact IH].
Qed.

End Keeps.

Lemma emit_state (type : string) (args : list jsstring) (w : router) :
  (emit type args w).2 = set_events (Some (events_of w)) w.
Proof.
  unfold emit, mbind, M_bind, bind, modify, get. rewrite events_of_set.
  by destruct (events_of w !! type) as [[|h hs]|].
Qed.

Lemma emit_throws (type : string) (args : list jsstring) (w : router) :
  listeners type w <> [] ->
  emit type args w
  = (Throw (ReferenceError "slice is not defined"),
     set_events (Some (events_of w)) w).
Proof.
  unfold emit, mbind, M_bind, bind, modify, get, listeners.
  rewrite events_of_set.
  by destruct (events_of w !! type) as [[|h hs]|].
Qed.

(** *** Listeners and runs *)

(** X6.  Once a function listens to [statechange], every run throws a
    [ReferenceError] where the event is emitted, before any rule is looked
    at: nothing is called, and the router is not started. *)
Theorem statechange_listener_blocks_run (f : value) (o : options) (w : router) :
  is_function f = true ->
  exists w',
    (on "statechange" f;; run o) w
    = (Throw (ReferenceError "slice is not defined"), w')
    /\ log w' = log w /\ running w' = running w
    /\ _watching w' = _watching w.
Proof.
  intros Hf. unfold on, mbind, M_bind, bind, modify. rewrite Hf.
  unfold run. unfold mbind at 1, M_bind at 1, bind at 1, get at 1.
  unfold mbind at 1, M_bind at 1, bind at 1.
  rewrite emit_throws.
  - eexists. repeat split.
  - unfold listeners. rewrite !events_of_set, lookup_insert_eq. cbn.
    intros H. by apply app_eq_nil in H as [_ H].
Qed.

Lemma statechange_listener_blocks_run_witness :
  exists w',
    (on "statechange" listener_a;; run to_user_42) three_rules
    = (Throw (ReferenceError "slice is not defined"), w')
    /\ log w' = log three_rules /\ running w' = running three_rules
    /\ _watching w' = _watching three_rules.
Proof.
  apply (statechange_listener_blocks_run listener_a to_user_42 three_rules).
  reflexivity.
Defined.

(** X7.  With a listener of [watching], a router that is not running never gets
    running: whatever the dispatch does, the run ends in an exception and
    leaves [running] unset and the listener in place, so that the next run
    ends the same way. *)
Theorem watching_listener_keeps_router_stopped (o : options) (w : router) :
  running w = false ->
  listeners "watching" w <> [] ->
  exists e w',
    run o w = (Throw e, w')
    /\ running w' = false
    /\ listeners "watching" w' <> [].
Proof.
  intros Hr Hl.
  pose (I := fun w0 : router =>
               running w0 = false /\ listeners "watching" w0 <> []).
  assert (HI : I w) by (by split).
  assert (I1 : forall e w0, I w0 -> I (record e w0)) by (intros ? ? H; exact H).
  assert (I2 : forall n w0, I w0 -> I (set_i n w0)) by (intros ? ? H; exact H).
  assert (I3 : forall v w0, I w0 -> I (set_watching v w0))
    by (intros ? ? H; exact H).
  assert (I4 : forall w0, I w0 -> I (set_events (Some (events_of w0)) w0))
    by (intros ? H; exact H).
  destruct (run o w) as [c w'] eqn:Hrun. unfold run in Hrun.
  apply bind_inv in Hrun as [(w0 & w0' & Hg & Hrun)|(e & Hg & _)];
    [|discriminate Hg].
  injection Hg as <- <-.
  apply bind_inv in Hrun as [([] & w1 & He & Hrun)|(e & He & ->)].
  2: { exists e, w'. split; [reflexivity|].
       apply (f_equal snd) in He. rewrite emit_state in He. cbn in He.
       subst w'. exact HI. }
  assert (HI1 : I w1).
  { apply (f_equal snd) in He. rewrite emit_state in He. cbn in He.
    subst w1. exact HI. }
  apply bind_inv in Hrun as [([] & w2 & Hloop & Hst)|(e & Hloop & ->)].
  2: { exists e, w'. split; [reflexivity|].
       destruct (_watching w) as [rules|].
       - exact (run_loop_keeps_I I I1 I2 I3 _ _ _ _ _ HI1 Hloop).
       - injection Hloop as _ <-. exact HI1. }
  assert (HI2 : I w2).
  { destruct (_watching w) as [rules|]; [|discriminate Hloop].
    exact (run_loop_keeps_I I I1 I2 I3 _ _ _ _ _ HI1 Hloop). }
  destruct HI2 as [Hr2 Hl2].
  unfold start_watching, mbind, M_bind, bind, get, modify in Hst.
  rewrite Hr2 in Hst.
  rewrite emit_throws in Hst by exact Hl2.
  injection Hst as <- <-. eexists. eexists. split; [reflexivity|].
  by split.
Qed.

Lemma watching_listener_keeps_router_stopped_witness :
  exists e w',
    run to_user_42 awaited = (Throw e, w')
    /\ running w' = false
    /\ listeners "watching" w' <> [].
Proof.
  apply (watching_listener_keeps_router_stopped to_user_42 awaited).
  - reflexivity.
  - intros H. vm_compute in H. discriminate H.
Defined.

(** *** Starting the router *)



Lemma run_when_running (o : options) (w : router) :
  running w = true ->
  run o w
  = (emit "statechange" [current_path o w];;
     match _watching w with
     | None => throw (TypeError "cannot read properties of undefined")
     | Some rules => run_loop rules (current_path o w)
     end) w.
Proof.
  intros Hr. unfold run, mbind, M_bind, bind, get.
  destruct (emit _ _ w) as [[[]|e] w1] eqn:He; [|reflexivity].
  assert (Hr1 : running w1 = true).
  { apply (f_equal snd) in He. rewrite emit_state in He. cbn in He.
    by subst w1. }
  destruct (_watching w) as [rules|]; [|reflexivity].
  destruct (run_loop rules _ w1) as [[[]|e] w2] eqn:Hl; [|reflexivity].
  assert (Hr2 : running w2 = true).
  { refine (run_loop_keeps_I (fun w0 => running w0 = true) _ _ _
              _ _ _ _ _ Hr1 Hl); done. }
  unfold start_watching, mbind, M_bind, bind, get. by rewrite Hr2.
Qed.

(** X9.  On a router that is running, a run does its dispatch and nothing more:
    two runs that name the same path do the same, whatever callback either
    brings. *)
Theorem callback_only_on_first_run (o1 o2 : options) (w : router) :
  running w = true ->
  url o1 = url o2 ->
  run o1 w = run o2 w.
Proof.
  intros Hr Hu. rewrite !run_when_running by exact Hr.
  unfold current_path. by rewrite Hu.
Qed.

Lemma callback_only_on_first_run_witness :
  run (to_user_42_then show_any) (set_running true three_rules)
  = run to_user_42 (set_running true three_rules).
Proof.
  apply (callback_only_on_first_run
           (to_user_42_then show_any) to_user_42
           (set_running true three_rules)); reflexivity.
Defined.

(** *** What a run keeps *)

Section RunKeeps.
Variable I : router -> Prop.
Hypothesis I_record : forall e w, I w -> I (record e w).
Hypothesis I_i : forall n w, I w -> I (set_i n w).
Hypothesis I_watching : forall v w, I w -> I (set_watching v w).
Hypothesis I_events : forall w, I w -> I (set_events (Some (events_of w)) w).
Hypothesis I_running : forall w, I w -> I (set_running true w).

Lemma emit_keeps_I (type : string) (args : list jsstring) (w : router) :
  I w -> I (emit type args w).2.
Proof. intros Hw. rewrite emit_state. by apply I_events. Qed.

Lemma start_watching_keeps_I (o : options) (w : router) :
  I w -> I (start_watching o w).2.
Proof.
  intros Hw. unfold start_watching.
  unfold mbind at 1, M_bind at 1, bind at 1, get at 1.
  destruct (running w); [exact Hw|].
  unfold mbind at 1, M_bind at 1, bind at 1, modify at 1.
  unfold mbind at 1, M_bind at 1, bind at 1.
  pose proof (emit_keeps_I "watching" [] (record EvObserve w)
                (I_record _ _ Hw)) as He.
  destruct (emit "watching" [] (record EvObserve w)) as [[[]|e] w1];
    [|exact He].
  unfold mbind at 1, M_bind at 1, bind at 1, modify at 1.
  cbn [snd] in He. apply I_running in He.
  assert (Hcall : forall v,
            I (call v EvCallback None (set_running true w1)).2).
  { intros v.
    destruct (call v EvCallback None (set_running true w1)) as [c w2] eqn:Hc.
    refine (call_keeps_I I I_record I_watching v EvCallback None _ _ _ _ He Hc).
    discriminate. }
  destruct (callback o); try exact He; apply Hcall.
Qed.

Lemma run_keeps_I (o : options) (w : router) : I w -> I (run o w).2.
Proof.
  intros Hw. unfold run.
  unfold mbind at 1, M_bind at 1, bind at 1, get at 1.
  unfold mbind at 1, M_bind at 1, bind at 1.
  pose proof (emit_keeps_I "statechange" [current_path o w] w Hw) as He.
  destruct (emit "statechange" [current_path o w] w) as [[[]|e] w1];
    [|exact He].
  cbn [snd] in He.
  unfold mbind at 1, M_bind at 1, bind at 1.
  destruct (_watching w) as [rules|]; [|exact He].
  destruct (run_loop rules (current_path o w) w1) as [[[]|e] w2] eqn:Hl.
  - apply start_watching_keeps_I.
    exact (run_loop_keeps_I I I_record I_i I_watching _ _ _ _ _ He Hl).
  - exact (run_loop_keeps_I I I_record I_i I_watching _ _ _ _ _ He Hl).
Qed.

End RunKeeps.

(** X10.  A run, whatever its outcome, leaves the configuration of the router as
    it was: the middlewares, the base, the listeners of every type and the
    location.  (The rule list can grow, through the closure of a redirect
    handler.) *)
Theorem run_keeps_configuration (o : options) (w : router) :
  _watchman_middlewares (run o w).2 = _watchman_middlewares w
  /\ __base (run o w).2 = __base w
  /\ events_of (run o w).2 = events_of w
  /\ location (run o w).2 = location w.
Proof.
  apply (run_keeps_I
           (fun w0 => _watchman_middlewares w0 = _watchman_middlewares w
                      /\ __base w0 = __base w
                      /\ events_of w0 = events_of w
                      /\ location w0 = location w));
    try (intros; assumption).
  by repeat split.
Qed.

(** *** The chain of middlewares ends *)

Lemma hit_rule_ends (r : rule) (p : jsstring) (w : router) :
  fst (hit_rule r p w) <> Throw Exhausted.
Proof.
  unfold hit_rule. destruct (paramsParser _ _ _) as [ps|]; [|discriminate].
  unfold mbind at 1, M_bind at 1, bind at 1, get at 1.
  destruct (_watchman_middlewares w) as [mws|] eqn:Hm.
  - unfold mbind, M_bind, bind, modify.
    destruct (layer _ _ _ 0 (set_i 0 w)) as [c w'] eqn:Hl. cbn [fst].
    refine (proj2 (layer_fuel_suffices _ _ (length mws) (set_i 0 w) c w' _ Hl)).
    cbn [_watchman_middlewares set_i _i]. rewrite Hm. cbn. lia.
  - destruct (call _ _ None w) as [c w'] eqn:Hc. cbn [fst].
    refine (proj2 (call_keeps (fun _ _ => True) _ _ None _ w c w' I Hc)).
    discriminate.
Qed.

(** X11.  Every call of a continuation enters [layer] with a larger index, so
    the chain started by a run takes no more nested calls than there are
    middlewares: the bound that the model puts on the nesting is never
    reached, and the run ends with the completion of the code. *)
Theorem run_never_exhausts (o : options) (w : router) :
  fst (run o w) <> Throw Exhausted.
Proof.
  unfold run.
  unfold mbind at 1, M_bind at 1, bind at 1, get at 1.
  unfold mbind at 1, M_bind at 1, bind at 1.
  destruct (emit "statechange" [current_path o w] w) as [[[]|e] w1] eqn:He.
  2: { cbn. intros [= ->]. unfold emit, mbind, M_bind, bind, modify, get in He.
       destruct (events_of _ !! _) as [[|x l]|]; discriminate He. }
  unfold mbind at 1, M_bind at 1, bind at 1.
  destruct (_watching w) as [rules|]; [|discriminate].
  assert (Hloop : fst (run_loop rules (current_path o w) w1)
                  <> Throw Exhausted).
  { clear He. induction rules as [|r tl IH]; [discriminate|].
    cbn [run_loop]. destruct (exec _ _); [apply hit_rule_ends|exact IH]. }
  destruct (run_loop rules (current_path o w) w1) as [[[]|e] w2];
    [|exact Hloop].
  unfold start_watching.
  unfold mbind at 1, M_bind at 1, bind at 1, get at 1.
  destruct (running w2); [discriminate|].
  unfold mbind at 1, M_bind at 1, bind at 1, modify at 1.
  unfold mbind at 1, M_bind at 1, bind at 1.
  destruct (emit "watching" [] (record EvObserve w2)) as [[[]|e] w3] eqn:He2.
  2: { cbn. intros [= ->]. unfold emit, mbind, M_bind, bind, modify, get in He2.
       destruct (events_of _ !! _) as [[|x l]|]; discriminate He2. }
  unfold mbind at 1, M_bind at 1, bind at 1, modify at 1.
  assert (Hcall : forall v,
            fst (call v EvCallback None (set_running true w3))
            <> Throw Exhausted).
  { intros v.
    destruct (call v EvCallback None (set_running true w3)) as [c w4] eqn:Hc.
    refine (proj2 (call_keeps (fun _ _ => True) _ _ None _ _ c w4 I Hc)).
    discriminate. }
  destruct (callback o); try discriminate; apply Hcall.
Qed.

(** *** The loop of the older copies *)

Lemma hit_rule_plain (r : rule) (h : jsfun) (p : jsstring) (w : router) :
  _watchman_middlewares w = None ->
  handler r = VFun h ->
  next_calls (body h) = 0 ->
  is_Some (exec (regexp r) p) ->
  exists w',
    hit_rule r p w = (Normal tt, w')
    /\ calls (history w') = calls (history w) ++ [Handler (fid h)]
    /\ _watchman_middlewares w' = None.
Proof.
  intros Hm Hh Hn [m Hex].
  unfold hit_rule, paramsParser. rewrite Hex, Hh.
  unfold mbind at 1, M_bind at 1, bind at 1, get at 1. rewrite Hm.
  unfold call, mbind, M_bind, bind, modify.
  set (ev := EvHandler (fid h) _).
  destruct (run_body_quiet None (body h) Hn (record ev w))
    as (w' & Hr & Hc & _ & Hmw).
  exists w'. split; [exact Hr|]. split.
  - rewrite Hc, calls_record. reflexivity.
  - rewrite Hmw. exact Hm.
Qed.

(** X12.  In the two older copies of the library the loop has no [break]: with
    no middleware and handlers that are functions of one argument, a run
    calls the handler of every rule that matches the path, in the order of
    registration, not of the first alone. *)
Theorem older_loop_calls_all_matches
    (rules : list rule) (p : jsstring) (w : router) :
  _watchman_middlewares w = None ->
  Forall (fun r : rule => exists h, handler r = VFun h
                                    /\ next_calls (body h) = 0) rules ->
  exists w',
    run_loop_0_0_1 rules p w = (Normal tt, w')
    /\ calls (history w') = calls (history w) ++ omap (handler_call p) rules.
Proof.
  intros Hm Hall. revert w Hm.
  induction Hall as [|r rules (h & Hh & Hn) _ IH]; intros w Hm.
  - exists w. split; [reflexivity|]. by rewrite app_nil_r.
  - cbn [run_loop_0_0_1 omap list_omap]. unfold handler_call at 1.
    destruct (exec (regexp r) p) as [m|] eqn:Hex.
    + destruct (hit_rule_plain r h p w Hm Hh Hn) as (w1 & H1 & Hc1 & Hm1);
        [by rewrite Hex|].
      destruct (IH w1 Hm1) as (w2 & H2 & Hc2).
      exists w2. split.
      * unfold mbind, M_bind, bind. by rewrite H1.
      * rewrite Hh, Hc2, Hc1, <- app_assoc. reflexivity.
    + exact (IH w Hm).
Qed.

Lemma older_loop_calls_all_matches_witness :
  exists w',
    run_loop_0_0_1 [home_rule; user_rule; exact_rule] (str "/user/42")
                   (fresh [])
    = (Normal tt, w')
    /\ calls (history w')
       = calls (history (fresh []))
         ++ omap (handler_call (str "/user/42"))
                 [home_rule; user_rule; exact_rule].
Proof.
  apply (older_loop_calls_all_matches
           [home_rule; user_rule; exact_rule] (str "/user/42") (fresh [])).
  - reflexivity.
  - repeat (constructor; [eexists; split; reflexivity|]). constructor.
Defined.

End DispatchFacts.

(* ===================================================================== *)
(** ** Properties of registration *)
(* ===================================================================== *)
Module RegistrationFacts.
Import Chars Regex Compiler Router Notions Scenarios Examples.
Import RouterFacts.

(** *** The base path *)

Lemma is_prefix_spec (a s : jsstring) :
  is_prefix a s = true <-> starts_with a s.
Proof.
  revert s. induction a as [|x a IH]; intros s; cbn.
  - split; [intros _; by exists s|done].
  - destruct s as [|y s].
    + split; [done|]. by intros [t H].
    + rewrite andb_true_iff, Ascii.eqb_eq, IH. split.
      * intros [-> [t ->]]. by exists t.
      * intros [t [= -> ->]]. split; [done|by exists t].
Qed.

Lemma string_indexOf_zero (s b : jsstring) :
  string_indexOf s b = 0%Z <-> starts_with b s.
Proof.
  rewrite <- is_prefix_spec.
  destruct s as [|c s]; cbn; destruct (is_prefix b _); try done.
  destruct (string_indexOf s b <? 0)%Z eqn:E; split; try done.
  apply Z.ltb_ge in E. lia.
Qed.

Lemma indexOf_zero {A} `{EqDecision A} (x : A) (l : list A) :
  indexOf x l = 0%Z <-> head l = Some x.
Proof.
  destruct l as [|y l]; cbn; [done|].
  destruct (decide (y = x)) as [->|Hne].
  - done.
  - destruct (indexOf x l <? 0)%Z eqn:E.
    + split; [done|]. intros [= ?]. done.
    + apply Z.ltb_ge in E. split; [lia|]. intros [= ?]. done.
Qed.

(** X13.  [createRule] puts the base in front of a string path that is not ["*"]
    and does not start with it (the path ["/"] becomes the base itself),
    and leaves the others alone; the outcome starts with the base unless it
    is ["*"], so that it would be left alone in its turn. *)
Theorem base_is_put_in_front_once (b s : jsstring) :
  exists s',
    with_base b (PString s) = Normal (PString s')
    /\ (s = str "*" \/ starts_with b s -> s' = s)
    /\ (s <> str "*" -> ~ starts_with b s ->
        s' = b ++ (if bool_decide (s = str "/") then [] else s))
    /\ (s' = str "*" \/ starts_with b s')
    /\ with_base b (PString s') = Normal (PString s').
Proof.
  assert (Hfix : forall t, t = str "*" \/ starts_with b t ->
                   with_base b (PString t) = Normal (PString t)).
  { intros t [->|Ht]; cbn; [done|].
    apply string_indexOf_zero in Ht. rewrite Ht.
    by rewrite andb_false_r. }
  destruct (decide (s = str "*" \/ starts_with b s)) as [H|H].
  - exists s. split; [by apply Hfix|]. split; [done|].
    split; [tauto|]. split; [exact H|by apply Hfix].
  - assert (Hs : s <> str "*") by tauto.
    assert (Hb : ~ starts_with b s) by tauto.
    exists (b ++ (if bool_decide (s = str "/") then [] else s)).
    assert (Hst : starts_with b
                    (b ++ (if bool_decide (s = str "/") then [] else s)))
      by (by eexists).
    split; [|split; [tauto|split; [done|split; [by right|apply Hfix; by right]]]].
    cbn. rewrite bool_decide_eq_false_2 by done.
    rewrite <- string_indexOf_zero in Hb.
    apply Z.eqb_neq in Hb. by rewrite Hb.
Qed.

(** X14.  An array reaches [pathToRegExp] as an array only when its first
    element is the base.  Any other array is concatenated to the base and
    so becomes a string, the text of its elements separated by commas. *)
Theorem array_pattern_needs_base_in_front (b : jsstring) (l : list jsstring) :
  with_base b (PArray l)
  = Normal (if bool_decide (head l = Some b) then PArray l
            else PString (b ++ (if bool_decide (join (str ",") l = str "/")
                                then [] else join (str ",") l))).
Proof.
  unfold with_base. destruct (decide (head l = Some b)) as [H|H].
  - rewrite (bool_decide_eq_true_2 (head l = Some b)) by done.
    apply indexOf_zero in H. by rewrite H.
  - rewrite (bool_decide_eq_false_2 (head l = Some b)) by done.
    rewrite <- indexOf_zero in H. apply Z.eqb_neq in H. by rewrite H.
Qed.

(** *** The rule list *)

Lemma createRule_state (p : route) (h : value) (w : router) :
  (createRule p h w).2 = w.
Proof.
  unfold createRule, mbind, M_bind, bind, get.
  destruct (with_base _ p) as [p'|e]; [|reflexivity].
  by destruct (pathToRegExp p').
Qed.

Lemma createRule_base (p : route) (h : value) (w1 w2 : router) :
  __base w1 = __base w2 ->
  fst (createRule p h w1) = fst (createRule p h w2).
Proof.
  intros Hb. unfold createRule, mbind, M_bind, bind, get. rewrite Hb.
  destruct (with_base _ p) as [p'|e]; [|reflexivity].
  by destruct (pathToRegExp p').
Qed.

Lemma createRule_handler (p : route) (h : value) (w w' : router) (r : rule) :
  createRule p h w = (Normal r, w') -> handler r = stored_handler h.
Proof.
  unfold createRule, mbind, M_bind, bind, get.
  destruct (with_base _ p) as [p'|e]; [|discriminate].
  destruct (pathToRegExp p'); [|discriminate].
  by intros [= <- _].
Qed.

Lemma register_outcome (p : route) (h : value) (w : router) :
  register p h w
  = match fst (createRule p h w) with
    | Normal r => (Normal tt, set_watching (Some (rules_of w ++ [r])) w)
    | Throw e => (Throw e, set_watching (Some (rules_of w)) w)
    end.
Proof.
  unfold register, rules_of, mbind, M_bind, bind, modify.
  rewrite (surjective_pairing (createRule p h (set_watching _ w))).
  rewrite createRule_state.
  rewrite (createRule_base p h _ w) by reflexivity.
  by destruct (fst (createRule p h w)).
Qed.

(** X15.  A registration adds one rule at the end of the list, with the handler
    it was given (the closure of a redirect for a [String] object), or
    throws and adds none.  It never removes, moves or changes a rule that
    was there, and touches nothing but the rule list, which exists
    afterwards in either case. *)
Theorem register_appends_one_rule_or_none
    (p : route) (h : value) (w : router) :
  same_but_rules w (register p h w).2
  /\ is_Some (_watching (register p h w).2)
  /\ match fst (register p h w) with
     | Normal _ =>
         exists r, rules_of (register p h w).2 = rules_of w ++ [r]
                   /\ handler r = stored_handler h
                   /\ fst (createRule p h w) = Normal r
     | Throw e =>
         rules_of (register p h w).2 = rules_of w
         /\ fst (createRule p h w) = Throw e
     end.
Proof.
  rewrite register_outcome.
  destruct (createRule p h w) as [[r|e] w1] eqn:Hc; cbn.
  - split; [reflexivity|]. split; [by eexists|].
    exists r. split; [reflexivity|]. split; [|reflexivity].
    by apply createRule_handler in Hc.
  - split; [reflexivity|]. split; [by eexists|]. by split.
Qed.

Lemma created_base (w1 w2 : router) (r : rule) (e : jsstring * value) :
  __base w1 = __base w2 -> created w1 r e -> created w2 r e.
Proof.
  unfold created. intros Hb H.
  by rewrite <- (createRule_base _ _ w1 w2 Hb).
Qed.

(** X16.  [watch(mapping)] registers the entries in the order of enumeration
    and stops at the first that throws: when it returns, one rule per entry
    was added, in that order; when it throws, the rules of the entries in
    front of the one that threw stay registered. *)
Theorem watch_mapping_registers_in_order
    (es : list (jsstring * value)) (w : router) :
  exists rs,
    rules_of (watch (OneObject es) w).2 = rules_of w ++ rs
    /\ same_but_rules w (watch (OneObject es) w).2
    /\ Forall2 (created w) rs (take (length rs) es)
    /\ match fst (watch (OneObject es) w) with
       | Normal _ => length rs = length es
       | Throw e =>
           exists p h, es !! length rs = Some (p, h)
                       /\ fst (createRule (PString p) h w) = Throw e
       end.
Proof.
  cbn [watch]. revert w. induction es as [|[p h] tl IH]; intros w.
  - exists []. cbn. rewrite app_nil_r. repeat split. constructor.
  - cbn [register_all]. unfold mbind, M_bind, bind.
    rewrite register_outcome.
    destruct (createRule (PString p) h w) as [[r|e] w0] eqn:Hc; cbn [fst].
    + set (w1 := set_watching (Some (rules_of w ++ [r])) w).
      destruct (IH w1) as (rs & Hrs & Hsame & Hall & Hend).
      exists (r :: rs). split; [|split; [|split]].
      * rewrite Hrs. unfold w1 at 1. cbn. by rewrite <- app_assoc.
      * unfold same_but_rules in *. by rewrite <- Hsame.
      * cbn. constructor.
        -- unfold created. cbn. by rewrite Hc.
        -- eapply Forall2_impl; [exact Hall|].
           intros r0 e0. by apply created_base.
      * destruct (fst (register_all tl w1)) as [[]|e].
        -- cbn. by rewrite Hend.
        -- destruct Hend as (p' & h' & Hl & Hthrow).
           exists p', h'. split; [exact Hl|].
           by rewrite <- (createRule_base _ _ w1 w).
    + exists []. cbn. rewrite app_nil_r. repeat split; [constructor|].
      exists p, h. split; [reflexivity|]. by rewrite Hc.
Qed.

(** A mapping with a path that [new RegExp] rejects: the entry in front
    of it is registered, the entry behind it is not. *)
Lemma mapping_stops_at_malformed_path :
  exists w r,
    watch (OneObject broken_mapping) (fresh [])
    = (Throw (RegExpError SyntaxError), w)
    /\ rules_of w = [r]
    /\ created (fresh []) r (str "/a", show_any).
Proof.
  eexists. eexists. split; [vm_compute; reflexivity|].
  split; [reflexivity|]. vm_compute. reflexivity.
Qed.

End RegistrationFacts.

(* ===================================================================== *)
(** ** Further properties of the compiler *)
(* ===================================================================== *)
Module PatternFacts.
Import Chars Regex Compiler Router Notions PatternNotions Scenarios Examples.
Import RegexFacts CompilerFacts.

(** *** Literal paths *)



(** *** Parameters *)




(** *** The test for hash routes *)

(** X18.  [isHashRouter] holds of the paths that start with [#]. *)
Theorem isHashRouter_spec (p : jsstring) :
  isHashRouter p = true <-> starts_with (str "#") p.
Proof.
  unfold isHashRouter, test.
  rewrite (exec_anchored re_hash (RSeq (RChar "#") REmpty) p eq_refl).
  unfold match_at. destruct p as [|c t]; cbn -[Ascii.eqb].
  - split; [discriminate|]. intros [t H]. discriminate H.
  - destruct (Ascii.eqb "#" c) eqn:E.
    + apply Ascii.eqb_eq in E. subst c. split; [|reflexivity].
      intros _. by exists t.
    + split; [discriminate|]. intros [t' [= Hc _]]. subst c.
      by rewrite Ascii.eqb_refl in E.
Qed.

(** *** The last replacement *)





(** *** The expression of a path that ends in a star *)




(** *** A greedy run of dots in front of any continuation *)

Lemma dot_run_then (ic : bool) (Q : jsstring -> Prop) (D : cont) :
  (forall y, is_Some (D y) <-> Q (rest y)) ->
  forall fuel x,
    length (rest x) < fuel ->
    is_Some (repeat_matcher (matcher ic RDot) [] fuel 0 None true x D)
    <-> exists n t, rest x = n ++ t
          /\ Forall (fun ch => is_line_terminator ch = false) n /\ Q t.
Proof.
  intros HD.
  set (M := matcher ic RDot).
  assert (HM : forall x c,
            M x c = step (fun ch => negb (is_line_terminator ch)) x c)
    by reflexivity.
  clearbody M.
  induction fuel as [|fuel IH]; intros x Hf; [lia|].
  rewrite repeat_matcher_unfold. cbv zeta. rewrite !HM. unfold step.
  cbn [rest prev caps negb Nat.eqb andb Nat.pred].
  rewrite is_Some_orelse, HD.
  destruct (rest x) as [|ch tl] eqn:Hr.
  - rewrite is_Some_None. split.
    + intros [[]|HQ]. exists [], []. by repeat split.
    + intros (n & t & Hnt & _ & HQ). right.
      symmetry in Hnt. apply app_eq_nil in Hnt as [_ ->]. exact HQ.
  - replace (length tl =? length (ch :: tl)) with false
      by (symmetry; apply Nat.eqb_neq; cbn; lia).
    destruct (is_line_terminator ch) eqn:Hlt; cbn [negb].
    + rewrite is_Some_None. split.
      * intros [[]|HQ]. exists [], (ch :: tl). by repeat split.
      * intros (n & t & Hnt & Hn & HQ). right.
        destruct n as [|c n]; [by rewrite Hnt|].
        injection Hnt as <- _. apply Forall_cons in Hn as [Hn _]. congruence.
    + rewrite IH by (cbn in Hf; cbn; lia). cbn [rest]. split.
      * intros [(n & t & -> & Hn & HQ)|HQ].
        -- exists (ch :: n), t. repeat split; [by constructor|exact HQ].
        -- exists [], (ch :: tl). by repeat split.
      * intros (n & t & Hnt & Hn & HQ).
        destruct n as [|c n]; [right; by rewrite Hnt|].
        injection Hnt as <- ->. apply Forall_cons in Hn as [_ Hn].
        left. by exists n, t.
Qed.

Lemma fragment_no_line_terminator (n t : jsstring) :
  Forall (fun ch => is_line_terminator ch = false) n ->
  is_fragment t ->
  Forall (fun ch => is_line_terminator ch = false) (n ++ t).
Proof.
  intros Hn [->|(f & -> & _ & Hf)]; [by rewrite app_nil_r|].
  apply Forall_app. split; [exact Hn|]. by constructor.
Qed.

(** The group of a star and the hash tail, in front of the end of the
    match: what is left of the path must be free of line terminators. *)
Lemma star_group_matches (ic : bool) (k : nat) (y : mstate) :
  is_Some (matcher ic (RSeq (star_group k) (hash_tail (S k))) y Some)
  <-> Forall (fun ch => is_line_terminator ch = false) (rest y).
Proof.
  unfold star_group. set (T := hash_tail (S k)). cbn [matcher group_ids].
  rewrite (dot_run_then ic is_fragment) by (first [lia | intros y'; subst T; by rewrite hash_tail_matches]).
  split.
  - intros (n & t & -> & Hn & Ht). by apply fragment_no_line_terminator.
  - intros H. exists (rest y), []. rewrite app_nil_r. repeat split; [exact H|by left].
Qed.



Lemma isHashRouter_head (s : jsstring) :
  isHashRouter s = bool_decide (head s = Some "#"%char).
Proof.
  unfold isHashRouter, test.
  rewrite (exec_anchored re_hash (RSeq (RChar "#") REmpty) s eq_refl).
  unfold match_at. destruct s as [|c t]; cbn -[Ascii.eqb]; [reflexivity|].
  destruct (Ascii.eqb "#" c) eqn:E.
  - apply Ascii.eqb_eq in E. subst c. reflexivity.
  - apply Ascii.eqb_neq in E. rewrite bool_decide_eq_false_2; [reflexivity|].
    intros [= H]. congruence.
Qed.




Lemma createRule_star (h : value) (w : router) :
  createRule (PString (str "*")) h w
  = (Normal (mkRule (mkCompiled [] (mkRegExp (wildcard_regex []) true))
                    (stored_handler h)), w).
Proof.
  unfold createRule, mbind, M_bind, bind, get, with_base.
  rewrite (bool_decide_eq_true_2 (str "*" = str "*")) by reflexivity.
  cbn [negb andb].
  replace (pathToRegExp (PString (str "*")))
    with (Ok (mkCompiled [] (mkRegExp (wildcard_regex []) true)))
    by (vm_compute; reflexivity).
  reflexivity.
Qed.

Lemma star_exec (path : jsstring) :
  is_Some (exec (mkRegExp (wildcard_regex []) true) path)
  <-> Forall (fun ch => is_line_terminator ch = false) path.
Proof.
  rewrite (exec_anchored (mkRegExp (wildcard_regex []) true)
             (RSeq (star_group 1) (hash_tail 2)) path eq_refl),
          match_at_is_Some.
  cbn [pattern ignoreCase wildcard_regex foldr map matcher prev].
  exact (star_group_matches true 1 (mkState None path [])).
Qed.

(** X20.  The path ["*"] is never given the base, and the rule made of it
    matches every path that holds no line terminator. *)
Theorem star_is_a_catch_all (h : value) (w : router) :
  exists r,
    createRule (PString (str "*")) h w = (Normal r, w)
    /\ keys r = []
    /\ handler r = stored_handler h
    /\ forall path,
         is_Some (exec (regexp r) path)
         <-> Forall (fun ch => is_line_terminator ch = false) path.
Proof.
  eexists. split; [apply createRule_star|].
  split; [reflexivity|]. split; [reflexivity|].
  intros path. apply star_exec.
Qed.

(** *** Hash routes *)

Lemma RegExp_new_hash_route (p : jsstring) (ic : bool) :
  Forall (fun c => is_plain c = true) p ->
  RegExp_new (p ++ str "((#.+)?)$") ic = Ok (mkRegExp (hash_regex p) ic).
Proof.
  intros Hp.
  assert (Hlex : lex (p ++ str "((#.+)?)$") = Ok (map TChar p ++ hash_tokens)).
  { unfold lex. rewrite lex_run_app, lex_run_plain.
    - rewrite lex_run_hash.
      rewrite !rev_app_distr, !rev_involutive. reflexivity.
    - eapply Forall_impl; [exact Hp|]. apply is_plain_lexes. }
  unfold RegExp_new. rewrite Hlex. unfold parse.
  rewrite parse_run_app, parse_run_chars, parse_run_hash.
  unfold frame_regex, seq_regex, push_chars, push_term, hash_regex. cbn.
  rewrite !rev_app_distr, rev_involutive. cbn.
  rewrite !map_app, map_map. cbn.
  rewrite !foldr_app. reflexivity.
Qed.

(** [exec] finds a match when the expression matches at some position. *)
Lemma search_is_Some (re : RegExp) (s : jsstring) :
  forall pv,
    is_Some (search re pv s)
    <-> exists pre t, s = pre ++ t
          /\ is_Some (match_at re (prev_after pv pre) t).
Proof.
  induction s as [|ch s IH]; intros pv; cbn [search].
  - destruct (match_at re pv []) as [m|] eqn:Hm.
    + split; [intros _|by eauto]. exists [], []. split; [done|].
      cbn. by rewrite Hm.
    + rewrite is_Some_None. split; [done|].
      intros (pre & t & Hs & Ht). symmetry in Hs.
      apply app_eq_nil in Hs as [-> ->]. cbn in Ht. rewrite Hm in Ht.
      by apply is_Some_None in Ht.
  - destruct (match_at re pv (ch :: s)) as [m|] eqn:Hm.
    + split; [intros _|by eauto]. exists [], (ch :: s). split; [done|].
      cbn. by rewrite Hm.
    + rewrite IH. split.
      * intros (pre & t & -> & Ht). exists (ch :: pre), t. split; [done|].
        destruct pre; exact Ht.
      * intros (pre & t & Hs & Ht). destruct pre as [|c pre].
        -- cbn in Hs, Ht. subst t. rewrite Hm in Ht.
           by apply is_Some_None in Ht.
        -- injection Hs as <- ->. exists pre, t. split; [done|].
           destruct pre; exact Ht.
Qed.

Lemma hash_route_compiles (p : jsstring) :
  Forall (fun c => is_plain c = true) p ->
  isHashRouter p = true ->
  pathToRegExp (PString p) = Ok (mkCompiled [] (mkRegExp (hash_regex p) true)).
Proof.
  intros Hp Hh. unfold pathToRegExp, compile_text.
  rewrite rewrite_path_no_colon by (by apply plain_absent).
  change (str "))") with (")"%char :: str ")").
  rewrite Hh, replace_first_absent by (by apply plain_absent).
  rewrite (replace_all_absent re_star "*" _ p eq_refl re_star_demands)
    by (by apply plain_absent).
  cbn [app]. by rewrite (RegExp_new_hash_route p true Hp).
Qed.

Lemma hash_route_exec (p path : jsstring) :
  is_Some (exec (mkRegExp (hash_regex p) true) path)
  <-> exists pre q t,
        path = pre ++ q ++ t /\ same_letters q p /\ is_fragment t.
Proof.
  unfold exec. rewrite search_is_Some.
  assert (Hat : forall pv s,
            is_Some (match_at (mkRegExp (hash_regex p) true) pv s)
            <-> exists q t, s = q ++ t /\ same_letters q p /\ is_fragment t).
  { intros pv s. rewrite match_at_is_Some.
    cbn [pattern ignoreCase]. unfold hash_regex.
    rewrite matcher_chars. split.
    - destruct (consume true p _) as [y|] eqn:Hc;
        [|intros [? H]; discriminate H].
      intros Hm. apply hash_tail_matches in Hm.
      apply consume_sound in Hc as (q & Hq & Hs). cbn in Hq.
      by exists q, (rest y).
    - intros (q & t & -> & Hs & Ht).
      destruct (consume_complete p (mkState pv (q ++ t) []) q t eq_refl Hs)
        as (y & -> & Hy).
      apply hash_tail_matches. by rewrite Hy. }
  split.
  - intros (pre & s & -> & Hs). apply Hat in Hs as (q & t & -> & Hq & Ht).
    by exists pre, q, t.
  - intros (pre & q & t & -> & Hq & Ht). exists pre, (q ++ t).
    split; [done|]. apply Hat. by exists q, t.
Qed.

(** X21.  A hash route of plain code units compiles, with no key, to an
    expression without an anchor at the start: it matches every path in
    which the text of the route occurs, up to letter case, with nothing or
    a fragment behind it, whatever stands in front. *)
Theorem hash_route_matches (p : jsstring) :
  Forall (fun c => is_plain c = true) p ->
  isHashRouter p = true ->
  pathToRegExp (PString p) = Ok (mkCompiled [] (mkRegExp (hash_regex p) true))
  /\ forall path,
       is_Some (exec (mkRegExp (hash_regex p) true) path)
       <-> exists pre q t,
             path = pre ++ q ++ t /\ same_letters q p /\ is_fragment t.
Proof.
  intros Hp Hh. split; [by apply hash_route_compiles|].
  intros path. apply hash_route_exec.
Qed.

Lemma hash_route_matches_witness :
  pathToRegExp (PString (str "#about"))
  = Ok (mkCompiled [] (mkRegExp (hash_regex (str "#about")) true))
  /\ forall path,
       is_Some (exec (mkRegExp (hash_regex (str "#about")) true) path)
       <-> exists pre q t,
             path = pre ++ q ++ t /\ same_letters q (str "#about")
             /\ is_fragment t.
Proof.
  apply (hash_route_matches (str "#about")).
  - repeat constructor.
  - reflexivity.
Defined.

(** *** Paths of segments *)





















End PatternFacts.

(* ===================================================================== *)
(** ** Arrays of plain paths *)
(* ===================================================================== *)
Module ArrayFacts.
Import Chars Regex Compiler Router Notions PatternNotions Scenarios Examples.
Import RegexFacts CompilerFacts PatternFacts.

Lemma lex_run_bar (toks : list token) :
  lex_run (LNormal, toks) (str "|") = Ok (LNormal, TBar :: toks).
Proof. reflexivity. Qed.

Lemma lex_run_alternatives (l : list jsstring) :
  Forall (Forall (fun c => is_plain c = true)) l ->
  forall toks,
    lex_run (LNormal, toks) (join (str "|") l)
    = Ok (LNormal, rev (alt_tokens l) ++ toks).
Proof.
  induction 1 as [|a l Ha _ IH]; intros toks; [reflexivity|].
  assert (Hlex : Forall lexes_plain a)
    by (eapply Forall_impl; [exact Ha|]; apply is_plain_lexes).
  destruct l as [|b l].
  - cbn [join alt_tokens]. by rewrite lex_run_plain.
  - change (join (str "|") (a :: b :: l))
      with (a ++ str "|" ++ join (str "|") (b :: l)).
    change (alt_tokens (a :: b :: l))
      with (map TChar a ++ TBar :: alt_tokens (b :: l)).
    rewrite lex_run_app, lex_run_plain by exact Hlex.
    rewrite lex_run_app, lex_run_bar, IH.
    rewrite rev_app_distr. cbn [rev]. by rewrite <- !app_assoc.
Qed.

Lemma seq_regex_chars (p : jsstring) :
  seq_regex (rev (map (fun c => (RChar c, true)) p)) = chars_regex p.
Proof.
  unfold seq_regex, chars_regex. rewrite rev_involutive, map_map. reflexivity.
Qed.

Lemma parse_run_alternatives (l : list jsstring) :
  forall g al ps n a,
    parse_run (mkPState (mkFrame g al []) ps n) (alt_tokens (a :: l))
    = Ok (mkPState
            (mkFrame g (rev (map chars_regex (removelast (a :: l))) ++ al)
                     (rev (map (fun c => (RChar c, true))
                               (List.last (a :: l) []))))
            ps n).
Proof.
  induction l as [|b l IH]; intros g al ps n a.
  - cbn [alt_tokens removelast List.last map rev app].
    rewrite parse_run_chars. unfold push_chars. cbn. by rewrite app_nil_r.
  - change (alt_tokens (a :: b :: l))
      with (map TChar a ++ TBar :: alt_tokens (b :: l)).
    rewrite parse_run_app, parse_run_chars.
    unfold push_chars. cbn [parse_run parse_step top parents opened f_group
                              f_alts f_seq].
    rewrite app_nil_r, seq_regex_chars, IH.
    change (removelast (a :: b :: l)) with (a :: removelast (b :: l)).
    change (List.last (a :: b :: l) []) with (List.last (b :: l) []).
    cbn [map rev]. by rewrite <- app_assoc.
Qed.

Lemma lex_run_paren (toks : list token) (c : ascii) (s : jsstring) :
  c <> "?"%char ->
  lex_run (LParen, toks) (c :: s) = lex_run (LNormal, TOpen true :: toks) (c :: s).
Proof.
  intros Hc. cbn [lex_run lex_step].
  replace (Ascii.eqb c "?") with false
    by (symmetry; apply Ascii.eqb_neq; exact Hc).
  reflexivity.
Qed.

Lemma alternation_head (l : list jsstring) (X : jsstring) :
  Forall (Forall (fun c => is_plain c = true)) l ->
  exists c s, join (str "|") l ++ ")"%char :: X = c :: s /\ c <> "?"%char.
Proof.
  intros Hl. destruct l as [|[|c a] l].
  - eexists _, _. split; [reflexivity|discriminate].
  - destruct l; eexists _, _; (split; [reflexivity|discriminate]).
  - apply Forall_cons in Hl as [Ha _]. apply Forall_cons in Ha as [Hc _].
    exists c. destruct l; eexists; (split; [reflexivity|]);
      intros ->; discriminate Hc.
Qed.

Lemma chars_of_alternatives (a : jsstring) (l : list jsstring) :
  rev (chars_regex (List.last (a :: l) [])
       :: rev (map chars_regex (removelast (a :: l))) ++ [])
  = map chars_regex (a :: l).
Proof.
  rewrite app_nil_r. cbn [rev]. rewrite rev_involutive.
  rewrite (app_removelast_last (l := a :: l) []) at 3 by discriminate.
  by rewrite map_app.
Qed.

(** The expression of the source of an array of plain paths. *)
Lemma RegExp_new_alternation (a : jsstring) (l : list jsstring) (ic : bool) :
  Forall (Forall (fun c => is_plain c = true)) (a :: l) ->
  RegExp_new (str "^" ++ alternation (a :: l) ++ str "((#.+)?)$") ic
  = Ok (mkRegExp (alternation_regex (a :: l)) ic).
Proof.
  intros Hl.
  assert (Hlex : lex (str "^" ++ alternation (a :: l) ++ str "((#.+)?)$")
                 = Ok (TStart :: TOpen true :: alt_tokens (a :: l)
                         ++ TClose :: hash_tokens)).
  { unfold lex, alternation.
    cbn [str list_ascii_of_string app lex_run lex_step lex_normal].
    change (lex_normal "^" []) with (Ok (A:=lstate) (LNormal, [TStart])).
    cbv iota. cbn [lex_run lex_step lex_normal].
    change (lex_normal "(" [TStart]) with (Ok (A:=lstate) (LParen, [TStart])).
    cbv iota. rewrite <- app_assoc.
    change ([")"%char] ++ ?X) with (")"%char :: X).
    destruct (alternation_head (a :: l) (str "((#.+)?)$") Hl)
      as (c & s & Hs & Hc).
    cbn [str list_ascii_of_string] in Hs.
    rewrite Hs, (lex_run_paren _ c s Hc), <- Hs.
    rewrite lex_run_app.
    pose proof (lex_run_alternatives (a :: l) Hl [TOpen true; TStart]) as Ha.
    cbn [str list_ascii_of_string] in Ha. rewrite Ha.
    cbn -[rev alt_tokens app]. f_equal. cbn [rev].
    rewrite rev_app_distr, rev_involutive. cbn [rev app].
    rewrite <- !app_assoc. reflexivity. }
  unfold RegExp_new. rewrite Hlex. unfold parse.
  cbn [parse_run parse_step top parents opened push_term f_group f_alts f_seq].
  rewrite parse_run_app, parse_run_alternatives.
  cbn [parse_run parse_step top parents opened push_term f_group f_alts f_seq].
  rewrite parse_run_hash.
  cbn [top parents opened f_group f_alts f_seq].
  unfold frame_regex at 1. cbn [f_seq f_alts rev app].
  unfold seq_regex at 1. cbn [rev app map fst foldr].
  unfold frame_regex. cbn [f_seq f_alts].
  rewrite seq_regex_chars, chars_of_alternatives.
  reflexivity.
Qed.

Lemma join_absent (ch : ascii) (l : list jsstring) :
  ch <> "|"%char -> Forall (fun a => ch ∉ a) l -> ch ∉ join (str "|") l.
Proof.
  intros Hch. induction 1 as [|a l Ha Hl IH]; [by apply not_elem_of_nil|].
  destruct l as [|b l]; [exact Ha|].
  change (join (str "|") (a :: b :: l))
    with (a ++ str "|" ++ join (str "|") (b :: l)).
  intros Hin. apply elem_of_app in Hin as [Hin|Hin]; [by apply Ha|].
  apply elem_of_cons in Hin as [Hin|Hin]; [by apply Hch|by apply IH].
Qed.

Lemma alternation_absent (ch : ascii) (l : list jsstring) :
  is_plain ch = false ->
  ch <> "|"%char -> ch <> "("%char -> ch <> ")"%char ->
  Forall (Forall (fun c => is_plain c = true)) l ->
  ch ∉ alternation l.
Proof.
  intros Hp Hbar Hopen Hclose Hl. unfold alternation. intros Hin.
  apply elem_of_cons in Hin as [Hin|Hin]; [by apply Hopen|].
  apply elem_of_app in Hin as [Hin|Hin].
  - revert Hin. apply join_absent; [exact Hbar|].
    eapply Forall_impl; [exact Hl|]. intros a Ha. by apply plain_absent.
  - apply elem_of_cons in Hin as [Hin|Hin]; [by apply Hclose|].
    by apply elem_of_nil in Hin.
Qed.

Lemma alternation_one_close (l : list jsstring) :
  Forall (Forall (fun c => is_plain c = true)) l ->
  replace_first (str "))") (str ")") (alternation l) = alternation l.
Proof.
  intros Hl. unfold alternation.
  change (str "(" ++ join (str "|") l ++ str ")")
    with (("("%char :: join (str "|") l) ++ str ")").
  change (str "))") with (")"%char :: str ")").
  rewrite replace_first_skip_run; [reflexivity|].
  constructor; [discriminate|].
  apply Forall_forall. intros c Hc ->. revert Hc.
  apply join_absent; [discriminate|].
  eapply Forall_impl; [exact Hl|]. intros a Ha. by apply plain_absent.
Qed.

Lemma array_compiles (a : jsstring) (l : list jsstring) :
  Forall (Forall (fun c => is_plain c = true)) (a :: l) ->
  pathToRegExp (PArray (a :: l))
  = Ok (mkCompiled [] (mkRegExp (alternation_regex (a :: l)) true)).
Proof.
  intros Hl. unfold pathToRegExp, compile_text.
  rewrite rewrite_path_no_colon
    by (apply alternation_absent; [reflexivity|discriminate..|exact Hl]).
  rewrite alternation_one_close by exact Hl.
  rewrite (replace_all_absent re_star "*" _ _ eq_refl re_star_demands)
    by (apply alternation_absent; [reflexivity|discriminate..|exact Hl]).
  assert (Hh : isHashRouter (alternation (a :: l)) = false)
    by (rewrite isHashRouter_head; apply bool_decide_eq_false_2; discriminate).
  rewrite Hh. by rewrite (RegExp_new_alternation a l true Hl).
Qed.

(** An alternation of runs of pattern characters finds a match when one of
    the runs can be read and the continuation accepts what follows. *)
Lemma alternatives_match (l : list jsstring) :
  forall a x c,
    is_Some (matcher true (alt_regex (chars_regex a) (map chars_regex l)) x c)
    <-> exists p y, p ∈ a :: l /\ consume true p x = Some y /\ is_Some (c y).
Proof.
  assert (Hone : forall p x c,
            is_Some (matcher true (chars_regex p) x c)
            <-> exists y, consume true p x = Some y /\ is_Some (c y)).
  { intros p x c. unfold chars_regex. rewrite matcher_chars.
    destruct (consume true p x) as [y|]; cbn [matcher].
    - split; [by eauto|]. by intros (? & [= <-] & H).
    - rewrite is_Some_None. split; [done|]. by intros (? & [=] & _). }
  induction l as [|b l IH]; intros a x c.
  - cbn [map alt_regex]. rewrite Hone. split.
    + intros (y & Hy & Hc). exists a, y. split; [by left|done].
    + intros (p & y & Hp & Hy & Hc).
      apply elem_of_cons in Hp as [->|Hp]; [by eauto|].
      by apply elem_of_nil in Hp.
  - cbn [map alt_regex matcher].
    destruct (matcher true (chars_regex a) x c) as [z|] eqn:Ha.
    + split; [intros _|by eauto].
      destruct (proj1 (Hone a x c)) as (y & Hy & Hc); [by rewrite Ha|].
      exists a, y. split; [by left|done].
    + rewrite IH. split.
      * intros (p & y & Hp & Hy & Hc). exists p, y. split; [by right|done].
      * intros (p & y & Hp & Hy & Hc).
        apply elem_of_cons in Hp as [->|Hp]; [|by eauto].
        assert (Hs : is_Some (matcher true (chars_regex a) x c))
          by (apply Hone; eauto).
        rewrite Ha in Hs. by apply is_Some_None in Hs.
Qed.

Lemma array_exec (a : jsstring) (l : list jsstring) (path : jsstring) :
  is_Some (exec (mkRegExp (alternation_regex (a :: l)) true) path)
  <-> exists p q t,
        p ∈ a :: l /\ path = q ++ t /\ same_letters q p /\ is_fragment t.
Proof.
  rewrite (exec_anchored (mkRegExp (alternation_regex (a :: l)) true)
             _ path eq_refl),
          match_at_is_Some.
  cbn [pattern ignoreCase alternation_regex map matcher prev].
  rewrite alternatives_match. split.
  - intros (p & y & Hp & Hy & Hm).
    apply hash_tail_matches in Hm. cbn [rest] in Hm.
    apply consume_sound in Hy as (q & Hq & Hs). cbn in Hq.
    by exists p, q, (rest y).
  - intros (p & q & t & Hp & -> & Hs & Ht).
    destruct (consume_complete p (mkState None (q ++ t) []) q t eq_refl Hs)
      as (y & Hy & Hr).
    exists p, y. split; [exact Hp|]. split; [exact Hy|].
    apply hash_tail_matches. cbn [rest]. by rewrite Hr.
Qed.

(** X22.  An array of plain paths, with at least one element, compiles with no
    key to an anchored alternation: the paths that match are those that
    start with one of the elements up to letter case and go on with
    nothing or with a fragment.  A first element that starts with [#]
    does not make the rule a hash route. *)
Theorem array_of_paths_matches (a : jsstring) (l : list jsstring) :
  Forall (Forall (fun c => is_plain c = true)) (a :: l) ->
  pathToRegExp (PArray (a :: l))
  = Ok (mkCompiled [] (mkRegExp (alternation_regex (a :: l)) true))
  /\ forall path,
       is_Some (exec (mkRegExp (alternation_regex (a :: l)) true) path)
       <-> exists p q t,
             p ∈ a :: l /\ path = q ++ t /\ same_letters q p
             /\ is_fragment t.
Proof.
  intros Hl. split; [by apply array_compiles|].
  intros path. apply array_exec.
Qed.

Lemma array_of_paths_matches_witness :
  pathToRegExp (PArray app_paths)
  = Ok (mkCompiled [] (mkRegExp (alternation_regex app_paths) true))
  /\ forall path,
       is_Some (exec (mkRegExp (alternation_regex app_paths) true) path)
       <-> exists p q t,
             p ∈ app_paths /\ path = q ++ t /\ same_letters q p
             /\ is_fragment t.
Proof.
  apply (array_of_paths_matches (str "/app") [str "/app/x"]).
  repeat constructor.
Defined.

End ArrayFacts.

(* ===================================================================== *)
(** ** Properties of the navigation poller *)
(* ===================================================================== *)
Module NavigationFacts.
Import Chars Regex Compiler Router Navigation Notions Scenarios Examples.
Import RouterFacts EventFacts.

Lemma remove_loop_filter (func : value) (n : nat) :
  forall funcs,
    n <= length funcs ->
    remove_loop func n funcs
    = filter (fun f => f <> func) (take n funcs) ++ drop n funcs.
Proof.
  induction n as [|i IH]; intros funcs Hn; [reflexivity|].
  cbn [remove_loop].
  destruct (lookup_lt_is_Some_2 funcs i) as [x Hx]; [lia|].
  pose proof (take_drop_middle funcs i x Hx) as Hsplit.
  rewrite (take_S_r funcs i x Hx), filter_app.
  destruct (decide (funcs !! i = Some func)) as [Heq|Hne].
  - rewrite Hx in Heq. injection Heq as ->.
    rewrite <- Hsplit at 1.
    replace (Z.of_nat i) with (Z.of_nat (length (take i funcs)))
      by (rewrite length_take; lia).
    rewrite splice_one, IH.
    + rewrite take_app_length', drop_app_length' by (rewrite length_take; lia).
      rewrite filter_cons_False by (intros H; by apply H).
      by rewrite filter_nil, app_nil_r.
    + rewrite length_app, length_take, length_drop. lia.
  - rewrite IH by lia.
    rewrite filter_cons_True by (intros ->; by apply Hne).
    rewrite filter_nil, <- app_assoc. cbn [app].
    by rewrite (drop_S funcs x i Hx).
Qed.

(** X23.  [removeHashChange(func)] takes every occurrence of [func] out of the
    array and keeps the other functions in their order (where
    [removeEventListener] takes out one). *)
Theorem removeHashChange_removes_all (func : value) (st : poller) :
  hashChangeFuncs (removeHashChange func st)
  = filter (fun f => f <> func) (hashChangeFuncs st)
  /\ (func ∉ hashChangeFuncs (removeHashChange func st))
  /\ oldHref (removeHashChange func st) = oldHref st.
Proof.
  assert (H : hashChangeFuncs (removeHashChange func st)
              = filter (fun f => f <> func) (hashChangeFuncs st)).
  { unfold removeHashChange. cbn [hashChangeFuncs].
    rewrite remove_loop_filter by lia.
    by rewrite firstn_all, drop_all, app_nil_r. }
  split; [exact H|]. split; [|reflexivity].
  rewrite H. intros Hin. apply list_elem_of_filter in Hin as [Hne _].
  by apply Hne.
Qed.

(** X24.  [addHashChange] ignores what is not a function; it puts a function in
    front of the others when [before] holds and behind them otherwise, so
    that a function added and removed again leaves the array as it was
    when it was not in it. *)
Theorem addHashChange_then_remove (func before : value) (st : poller) :
  func ∉ hashChangeFuncs st ->
  removeHashChange func (addHashChange func before st) = st
  /\ (is_function func = false -> addHashChange func before st = st)
  /\ (is_function func = true ->
      hashChangeFuncs (addHashChange func before st)
      = if truthy before then func :: hashChangeFuncs st
        else hashChangeFuncs st ++ [func]).
Proof.
  intros Hnot.
  assert (Hkeep : filter (fun f => f <> func) (hashChangeFuncs st)
                  = hashChangeFuncs st).
  { induction (hashChangeFuncs st) as [|x l IH]; [reflexivity|].
    apply not_elem_of_cons in Hnot as [Hne Hnot].
    rewrite filter_cons_True by congruence. by rewrite IH. }
  assert (Hrem : forall st', hashChangeFuncs st' = hashChangeFuncs st ->
                   oldHref st' = oldHref st ->
                   removeHashChange func st' = st).
  { intros st' Hf Ho. unfold removeHashChange.
    rewrite remove_loop_filter by lia.
    rewrite firstn_all, drop_all, app_nil_r, Hf, Hkeep, Ho.
    by destruct st. }
  split; [|split].
  - unfold addHashChange. destruct (is_function func); [|by apply Hrem].
    unfold removeHashChange. cbn [hashChangeFuncs oldHref].
    rewrite remove_loop_filter by lia.
    rewrite firstn_all, drop_all, app_nil_r.
    destruct (truthy before).
    + rewrite filter_cons_False by (intros H; by apply H).
      rewrite Hkeep. by destruct st.
    + rewrite filter_app, Hkeep.
      rewrite filter_cons_False by (intros H; by apply H).
      rewrite filter_nil, app_nil_r. by destruct st.
  - intros Hf. unfold addHashChange. by rewrite Hf.
  - intros Hf. unfold addHashChange. rewrite Hf. reflexivity.
Qed.

(** X25.  The poller calls nothing while the address stays the same.  When it
    has changed, every function is called once, in the order of the array,
    and the new address becomes the old one; the event that each function
    receives names the new address as [oldURL] too, the old one being
    overwritten before the event is built. *)
Theorem tick_reports_new_address_twice (href : jsstring) (st : poller) :
  (href = oldHref st -> tick href st = ([], st))
  /\ (href <> oldHref st ->
      fst <$> (tick href st).1 = hashChangeFuncs st
      /\ Forall (fun call => newURL call.2 = href /\ oldURL call.2 = href)
                (tick href st).1
      /\ oldHref (tick href st).2 = href
      /\ hashChangeFuncs (tick href st).2 = hashChangeFuncs st
      /\ tick href (tick href st).2 = ([], (tick href st).2)).
Proof.
  unfold tick. split.
  - intros ->. by rewrite bool_decide_eq_false_2 by (intros H; by apply H).
  - intros Hne. rewrite bool_decide_eq_true_2 by congruence.
    cbn [fst snd hashChangeFuncs oldHref].
    split; [|split; [|split; [reflexivity|split; [reflexivity|]]]].
    + rewrite <- list_fmap_compose. apply list_fmap_id.
    + apply Forall_fmap. by apply Forall_true.
    + by rewrite bool_decide_eq_false_2 by (intros H; by apply H).
Qed.

Lemma addHashChange_then_remove_witness :
  removeHashChange listener_b
    (addHashChange listener_b VUndefined (mkPoller [listener_a] (str "/x")))
  = mkPoller [listener_a] (str "/x")
  /\ (is_function listener_b = false ->
      addHashChange listener_b VUndefined (mkPoller [listener_a] (str "/x"))
      = mkPoller [listener_a] (str "/x"))
  /\ (is_function listener_b = true ->
      hashChangeFuncs
        (addHashChange listener_b VUndefined
           (mkPoller [listener_a] (str "/x")))
      = if truthy VUndefined
        then listener_b :: hashChangeFuncs (mkPoller [listener_a] (str "/x"))
        else hashChangeFuncs (mkPoller [listener_a] (str "/x"))
             ++ [listener_b]).
Proof.
  apply (addHashChange_then_remove listener_b VUndefined
           (mkPoller [listener_a] (str "/x"))).
  intros Hin. apply elem_of_cons in Hin as [Hin|Hin]; [discriminate Hin|].
  by apply elem_of_nil in Hin.
Defined.

End NavigationFacts.

(* ===================================================================== *)
(** ** Further properties of the middleware chain *)
(* ===================================================================== *)
Module MiddlewareFacts.
Import Chars Regex Compiler Router Notions Scenarios Examples.
Import RouterFacts EventFacts DispatchFacts.

(** Middlewares pile up in the order of the calls of [use] and of the
    arguments of each call. *)
Lemma use_use (a b : list value) (w : router) :
  (use a;; use b) w = use (a ++ b) w.
Proof.
  unfold use, mbind, M_bind, bind, modify. cbn.
  by rewrite app_assoc.
Qed.

Lemma value_at (done rest : list value) (w : router) :
  _watchman_middlewares w = Some (done ++ rest) ->
  default VUndefined (default [] (_watchman_middlewares w) !! length done)
  = match rest with [] => VUndefined | v :: _ => v end.
Proof.
  intros ->. cbn [default from_option id].
  rewrite lookup_app_r by lia.
  rewrite Nat.sub_diag. by destruct rest.
Qed.

Lemma layer_chain_values (ctx : context) (h : jsfun) (rest : list value) :
  forall (done : list value) (fuel : nat) (w : router)
         (c : completion unit) (w' : router),
    _watchman_middlewares w = Some (done ++ rest) ->
    _i w = length done ->
    length rest <= fuel ->
    at_most_once rest ->
    layer fuel ctx (VFun h) (length done) w = (c, w') ->
    calls (history w') = calls (history w) ++ chain_of_values rest h.
Proof.
  induction rest as [|v rest IH]; intros done fuel w c w' Hm Hi Hf Honce Hl;
    rewrite layer_unfold in Hl;
    unfold mbind at 1, M_bind at 1, bind at 1, get at 1 in Hl;
    cbv zeta in Hl; rewrite (value_at _ _ _ Hm) in Hl.
  - cbn [truthy] in Hl. exact (run_handler_calls h ctx w c w' Hl).
  - destruct fuel as [|fuel]; [cbn in Hf; lia|].
    destruct v as [|s|s|m|target].
    + cbn [truthy chain_of_values] in *.
      exact (run_handler_calls h ctx w c w' Hl).
    + destruct s as [|a s]; cbn [truthy chain_of_values] in *.
      * exact (run_handler_calls h ctx w c w' Hl).
      * injection Hl as _ <-. by rewrite app_nil_r.
    + cbn [truthy chain_of_values] in *.
      injection Hl as _ <-. by rewrite app_nil_r.
    + cbn [truthy] in Hl. unfold call in Hl.
      apply bind_inv in Hl as [([] & w0 & H1 & H2)|(e & H1 & _)];
        [|discriminate H1].
      injection H1 as <-.
      destruct Honce as [Hone Honce].
      cbn [chain_of_values].
      destruct (next_calls (body m)) as [|[|n]] eqn:Hn; [| |lia].
      * destruct (run_body_quiet
                    (Some (modify (fun w => set_i (S (_i w)) w);;
                           w' ← get; layer fuel ctx (VFun h) (_i w')))
                    (body m) Hn (record (EvMiddleware (fid m) ctx) w))
          as (w3 & H3 & Hq & _).
        rewrite H2 in H3. injection H3 as _ <-.
        rewrite Hq, calls_record. reflexivity.
      * destruct (run_body_once _ _ Hn _ _ _ H2)
          as (w1 & c1 & w2 & (Hc1 & Hi1 & Hm1) & Hk & Hpost).
        apply bind_inv in Hk as [([] & w3 & H3 & H4)|(e & H3 & _)];
          [|discriminate H3].
        injection H3 as <-.
        apply bind_inv in H4 as [(w4 & w5 & H5 & H6)|(e & H5 & _)];
          [|discriminate H5].
        injection H5 as <- <-.
        cbn [_i set_i record] in H6. rewrite Hi1 in H6. cbn [_i record] in H6.
        rewrite Hi in H6.
        replace (S (length done)) with (length (done ++ [VFun m])) in H6
          by (rewrite length_app; cbn; lia).
        apply IH in H6.
        -- rewrite Hpost, H6.
           change (calls (history (set_i (length (done ++ [VFun m])) w1)))
             with (calls (history w1)).
           rewrite Hc1, calls_record, <- app_assoc. reflexivity.
        -- change (_watchman_middlewares
                     (set_i (length (done ++ [VFun m])) w1))
             with (_watchman_middlewares w1).
           rewrite Hm1. cbn [_watchman_middlewares record].
           rewrite Hm, <- app_assoc. reflexivity.
        -- reflexivity.
        -- cbn in Hf. lia.
        -- exact Honce.
    + cbn [truthy chain_of_values] in *. unfold call in Hl.
      apply bind_inv in Hl as [([] & w0 & H1 & H2)|(e & H1 & _)];
        [|discriminate H1].
      injection H1 as <-.
      apply register_all_keeps in H2 as (_ & _ & Hlog & _).
      unfold history. rewrite Hlog. cbn [log record rev].
      unfold calls. rewrite omap_app. reflexivity.
Qed.

Lemma chain_of_values_through (pre : list jsfun) (v : value)
    (post : list value) (h : jsfun) :
  Forall (fun m => next_calls (body m) = 1) pre ->
  is_function v = false ->
  chain_of_values ((VFun <$> pre) ++ v :: post) h
  = (Middleware ∘ fid <$> pre)
    ++ (if truthy v then [] else [Handler (fid h)]).
Proof.
  intros Hpre Hv. induction Hpre as [|m pre Hm _ IH].
  - by destruct v.
  - cbn. rewrite Hm. cbn. by rewrite IH.
Qed.

(** The exception of a continuation goes through the body that called
    it. *)
Lemma run_body_passes_throw (k : M unit) (e : exn) (i : nat)
    (mws : option (list value)) (acts : list action) :
  next_calls acts = 1 ->
  (forall w1, _i w1 = i -> _watchman_middlewares w1 = mws ->
              exists w2, k w1 = (Throw e, w2)) ->
  forall w, _i w = i -> _watchman_middlewares w = mws ->
            exists w', run_body acts (Some k) w = (Throw e, w').
Proof.
  intros Hn Hk. induction acts as [|[l|] acts IH]; intros w Hi Hm.
  - discriminate Hn.
  - cbn. unfold mbind, M_bind, bind, modify. by apply IH.
  - destruct (Hk w Hi Hm) as (w2 & H2). exists w2.
    cbn. unfold mbind, M_bind, bind. by rewrite H2.
Qed.

Lemma layer_throws (ctx : context) (hit v : value) (post : list value)
    (pre : list jsfun) :
  truthy v = true -> is_function v = false ->
  Forall (fun m => next_calls (body m) = 1) pre ->
  forall (done : list value) (fuel : nat) (w : router),
    _watchman_middlewares w = Some (done ++ (VFun <$> pre) ++ v :: post) ->
    _i w = length done ->
    length pre < fuel ->
    exists w',
      layer fuel ctx hit (length done) w
      = (Throw (TypeError "not a function"), w').
Proof.
  intros Hv Hnf Hpre.
  induction Hpre as [|m pre Hm _ IH]; intros done fuel w Hmw Hi Hf;
    (destruct fuel as [|fuel]; [lia|]);
    rewrite layer_unfold;
    unfold mbind at 1, M_bind at 1, bind at 1, get at 1;
    cbv zeta; rewrite (value_at _ _ _ Hmw); cbn [fmap list_fmap app].
  - rewrite Hv. exists w. by destruct v.
  - cbn [truthy]. unfold call, mbind at 1, M_bind at 1, bind at 1, modify at 1.
    apply (run_body_passes_throw _ _ (length done)
             (Some (done ++ (VFun <$> (m :: pre)) ++ v :: post)));
      [exact Hm| |exact Hi|exact Hmw].
    intros w1 Hi1 Hm1.
    unfold mbind, M_bind, bind, modify, get. cbn [_i set_i]. rewrite Hi1.
    replace (S (length done)) with (length (done ++ [VFun m]))
      by (rewrite length_app; cbn; lia).
    apply IH.
    + cbn [_watchman_middlewares set_i]. rewrite Hm1.
      cbn [fmap list_fmap app]. by rewrite <- app_assoc.
    + reflexivity.
    + cbn in Hf. lia.
Qed.

(** X26.  An entry of the middleware list that is not a function.  When the
    middlewares in front of it each call their continuation once: an entry
    that is not truthy ([undefined], the empty string) is taken for the end
    of the list, and the handler is called at once, the middlewares behind
    the entry being left out; any other entry cannot be called, and the
    dispatch ends there with a [TypeError], no handler being called. *)
Theorem middleware_entry_not_a_function
    (r : rule) (p : jsstring) (pre : list jsfun) (v : value)
    (post : list value) (h : jsfun) (w : router) :
  _watchman_middlewares w = Some ((VFun <$> pre) ++ v :: post) ->
  Forall (fun m => next_calls (body m) = 1) pre ->
  is_function v = false ->
  handler r = VFun h ->
  is_Some (exec (regexp r) p) ->
  calls (history (hit_rule r p w).2)
  = calls (history w) ++ (Middleware ∘ fid <$> pre)
    ++ (if truthy v then [] else [Handler (fid h)])
  /\ (truthy v = true ->
      fst (hit_rule r p w) = Throw (TypeError "not a function")).
Proof.
  intros Hm Hpre Hv Hh [m Hex].
  unfold hit_rule, paramsParser. rewrite Hex, Hh.
  set (ctx := mkCtx _ p).
  assert (Hrun : (w0 ← get;
                  match _watchman_middlewares w0 with
                  | Some mws =>
                      modify (set_i 0);; layer (length mws) ctx (VFun h) 0
                  | None => call (VFun h) (fun i => EvHandler i ctx) None
                  end) w
                 = layer (length ((VFun <$> pre) ++ v :: post)) ctx (VFun h) 0
                         (set_i 0 w)).
  { unfold mbind at 1, M_bind at 1, bind at 1, get at 1. by rewrite Hm. }
  rewrite Hrun. clear Hrun.
  set (mws := (VFun <$> pre) ++ v :: post) in *.
  split.
  - destruct (layer _ _ _ 0 (set_i 0 w)) as [c w'] eqn:Hl.
    apply (layer_chain_values _ h mws [] (length mws)) in Hl.
    + cbn [snd]. rewrite Hl. unfold mws.
      by rewrite chain_of_values_through.
    + exact Hm.
    + reflexivity.
    + reflexivity.
    + unfold mws. clear -Hpre Hv. induction Hpre as [|x pre Hx _ IH].
      * by destruct v.
      * cbn. split; [lia|exact IH].
  - intros Ht.
    destruct (layer_throws ctx (VFun h) v post pre Ht Hv Hpre []
                (length mws) (set_i 0 w)) as (w' & Hl).
    + exact Hm.
    + reflexivity.
    + unfold mws. rewrite length_app, length_fmap. cbn. lia.
    + cbn [length] in Hl. by rewrite Hl.
Qed.

Lemma middleware_entry_not_a_function_witness :
  calls (history (hit_rule user_rule (str "/user/42") with_gap).2)
  = calls (history with_gap) ++ (Middleware ∘ fid <$> [passes])
    ++ (if truthy VUndefined then [] else [Handler (fid (mkFun 1 [Act 10]))])
  /\ (truthy VUndefined = true ->
      fst (hit_rule user_rule (str "/user/42") with_gap)
      = Throw (TypeError "not a function")).
Proof.
  apply (middleware_entry_not_a_function user_rule (str "/user/42")
           [passes] VUndefined [VFun never_reached] (mkFun 1 [Act 10])
           with_gap).
  - reflexivity.
  - repeat constructor.
  - reflexivity.
  - reflexivity.
  - vm_compute. eexists. reflexivity.
Defined.

End MiddlewareFacts.

(* ===================================================================== *)
(** ** From registration to the call of the handler *)
(* ===================================================================== *)
Module EndToEndFacts.
Import Chars Regex Compiler Router Notions PatternNotions.
Import Scenarios Examples RegexFacts CompilerFacts RouterFacts.
Import EventFacts DispatchFacts RegistrationFacts PatternFacts.

Lemma history_record (e : event) (w : router) :
  history (record e w) = history w ++ [e].
Proof. reflexivity. Qed.

Lemma emit_silent (type : string) (args : list jsstring) (w : router) :
  listeners type w = [] ->
  emit type args w = (Normal tt, set_events (Some (events_of w)) w).
Proof.
  unfold emit, mbind, M_bind, bind, modify, get, listeners.
  rewrite events_of_set.
  destruct (events_of w !! type) as [[|h hs]|]; cbn; done.
Qed.

(** A run without a callback on a router without listeners or
    middlewares, when a rule with a function for its handler is the first
    to match the path of the run. *)
Lemma run_hits (o : options) (u : jsstring) (w : router) (r : rule)
    (pre post : list rule) (h : jsfun) :
  callback o = VUndefined ->
  current_path o w = u ->
  _watching w = Some (pre ++ r :: post) ->
  Forall (fun q : rule => exec (regexp q) u = None) pre ->
  is_Some (exec (regexp r) u) ->
  _events w = None ->
  _watchman_middlewares w = None ->
  handler r = VFun h ->
  exists c w' ps evs,
    run o w = (c, w')
    /\ paramsParser u (keys r) (regexp r) = Some ps
    /\ history w' = history w ++ EvHandler (fid h) (mkCtx ps u) :: evs
    /\ calls (history w') = calls (history w) ++ [Handler (fid h)].
Proof.
  intros Hcb Hpath Hw Hpre [m Hex] Hev Hmw Hh.
  unfold run.
  unfold mbind at 1, M_bind at 1, bind at 1, get at 1.
  rewrite Hpath, Hw.
  unfold mbind at 1, M_bind at 1, bind at 1.
  assert (Hemit : emit "statechange" [u] w = (Normal tt, set_events (Some ∅) w)).
  { unfold emit, mbind, M_bind, bind, modify, get, events_of.
    rewrite Hev. cbn. by rewrite lookup_empty. }
  rewrite Hemit. set (w1 := set_events (Some ∅) w).
  unfold mbind at 1, M_bind at 1, bind at 1.
  rewrite (run_loop_skips pre (r :: post) u w1 Hpre).
  cbn [run_loop]. rewrite Hex.
  unfold hit_rule, paramsParser. rewrite Hex.
  set (ps := bind_params (keys r) 0 (groups m) ∅).
  unfold mbind at 1, M_bind at 1, bind at 1, get at 1.
  change (_watchman_middlewares w1) with (_watchman_middlewares w).
  rewrite Hmw, Hh.
  set (ev := fun i : nat => EvHandler i (mkCtx ps u)).
  destruct (call (VFun h) ev None w1) as [c1 w2] eqn:Hcall.
  pose proof (run_handler_calls h (mkCtx ps u) w1 c1 w2 Hcall) as Hcalls.
  assert (Hhist : exists evs,
            history w2 = history w ++ EvHandler (fid h) (mkCtx ps u) :: evs).
  { unfold call in Hcall.
    apply bind_inv in Hcall as [([] & w0 & H1 & H2)|(e & H1 & _)];
      [|discriminate H1].
    injection H1 as <-.
    refine (run_body_keeps_I
              (fun w0 => exists evs,
                 history w0 = history w ++ EvHandler (fid h) (mkCtx ps u) :: evs)
              _ None _ (body h) _ _ _ _ H2).
    - intros e w0 [evs He]. exists (evs ++ [e]).
      rewrite history_record, He, <- app_assoc. reflexivity.
    - discriminate.
    - exists []. reflexivity. }
  assert (Hev2 : events_of w2 = ∅ /\ _events w2 = Some ∅).
  { refine (call_keeps_I (fun w0 => events_of w0 = ∅ /\ _events w0 = Some ∅)
              _ _ (VFun h) ev None _ w1 _ _ _ Hcall); try done. }
  destruct Hev2 as [Hev2 Hev2'].
  destruct Hhist as [evs Hhist].
  destruct c1 as [[]|e].
  - unfold start_watching.
    unfold mbind at 1, M_bind at 1, bind at 1, get at 1.
    destruct (running w2).
    + exists (Normal tt), w2, ps, evs. by repeat split.
    + unfold mbind at 1, M_bind at 1, bind at 1, modify at 1.
      unfold mbind at 1, M_bind at 1, bind at 1.
      assert (Hq : listeners "watching" (record EvObserve w2) = []).
      { change (default [] (events_of w2 !! "watching") = []).
        by rewrite Hev2, lookup_empty. }
      rewrite (emit_silent "watching" [] _ Hq).
      unfold mbind at 1, M_bind at 1, bind at 1, modify at 1.
      rewrite Hcb. eexists _, _, ps, (evs ++ [EvObserve]).
      split; [reflexivity|]. split; [reflexivity|]. split.
      * unfold history in *. cbn [log set_running set_events record rev].
        rewrite Hhist, <- app_assoc. reflexivity.
      * unfold history in *. cbn [log set_running set_events record rev].
        unfold calls in *. rewrite omap_app, Hcalls. cbn. by rewrite app_nil_r.
  - exists (Throw e), w2, ps, evs. by repeat split.
Qed.

(** The same for the dispatch of a path that is not empty. *)
Lemma dispatch_hits (u : jsstring) (w : router) (r : rule)
    (pre post : list rule) (h : jsfun) :
  u <> [] ->
  _watching w = Some (pre ++ r :: post) ->
  Forall (fun q : rule => exec (regexp q) u = None) pre ->
  is_Some (exec (regexp r) u) ->
  _events w = None ->
  _watchman_middlewares w = None ->
  handler r = VFun h ->
  exists c w' ps evs,
    watch (OneString u) w = (c, w')
    /\ paramsParser u (keys r) (regexp r) = Some ps
    /\ history w' = history w ++ EvHandler (fid h) (mkCtx ps u) :: evs
    /\ calls (history w') = calls (history w) ++ [Handler (fid h)].
Proof.
  intros Hu. apply run_hits; [reflexivity|].
  unfold current_path. cbn. by destruct u.
Qed.

Lemma register_on_fresh (b loc s s' : jsstring) (h : jsfun) (c : compiled) :
  with_base b (PString s) = Normal (PString s') ->
  pathToRegExp (PString s') = Ok c ->
  register (PString s) (VFun h) (set_base b (fresh loc))
  = (Normal tt,
     set_watching (Some [mkRule c (VFun h)]) (set_base b (fresh loc))).
Proof.
  intros Hb Hc. rewrite register_outcome.
  unfold createRule, mbind, M_bind, bind, get. cbn [__base set_base].
  rewrite Hb, Hc. reflexivity.
Qed.






(** X29.  The rule of the path ["*"], registered behind the other rules of a
    router without listeners or middlewares, takes what they leave: the
    dispatch of a path free of line terminators that none of them matches
    calls its handler, and no other. *)
Theorem star_rule_is_the_fallback
    (rules : list rule) (r : rule) (h : jsfun) (u : jsstring) (w : router) :
  fst (createRule (PString (str "*")) (VFun h) w) = Normal r ->
  _watching w = Some (rules ++ [r]) ->
  _events w = None ->
  _watchman_middlewares w = None ->
  u <> [] ->
  Forall (fun ch => is_line_terminator ch = false) u ->
  Forall (fun q : rule => exec (regexp q) u = None) rules ->
  exists c w',
    watch (OneString u) w = (c, w')
    /\ calls (history w') = calls (history w) ++ [Handler (fid h)].
Proof.
  intros Hr Hw Hev Hmw Hu Hlt Hrules.
  rewrite createRule_star in Hr. injection Hr as <-.
  assert (Hmatch : is_Some
            (exec (regexp (mkRule (mkCompiled []
                                     (mkRegExp (wildcard_regex []) true))
                                  (VFun h))) u))
    by (by apply star_exec).
  destruct (dispatch_hits u w _ rules [] h Hu Hw Hrules Hmatch Hev Hmw eq_refl)
    as (c & w' & ps & evs & Hrun & _ & _ & Hcalls).
  by exists c, w'.
Qed.

Lemma star_rule_is_the_fallback_witness :
  exists c w',
    watch (OneString (str "/nowhere")) behind_three_rules = (c, w')
    /\ calls (history w')
       = calls (history behind_three_rules) ++ [Handler (fid page)].
Proof.
  apply (star_rule_is_the_fallback
           [home_rule; user_rule; exact_rule] star_rule page
           (str "/nowhere") behind_three_rules).
  - vm_compute. reflexivity.
  - reflexivity.
  - reflexivity.
  - reflexivity.
  - discriminate.
  - repeat constructor.
  - repeat (constructor; [vm_compute; reflexivity|]). constructor.
Defined.

(** X30.  Without a path of its own a run dispatches the location of the host,
    its path followed by its hash: [watch()] and [watch('')] do so alike.
    A hash route of plain code units, registered on a new router, is
    called by them when the location ends with the text of the route. *)
Theorem hash_route_follows_location
    (p front : jsstring) (h : jsfun) :
  Forall (fun c => is_plain c = true) p ->
  isHashRouter p = true ->
  (forall w, watch (OneString []) w = watch NoArgument w)
  /\ exists c w',
       (watch (Two (PString p) (VFun h));; watch NoArgument)
         (fresh (front ++ p)) = (c, w')
       /\ calls (history w') = [Handler (fid h)].
Proof.
  intros Hp Hh. split; [reflexivity|].
  set (cp := mkCompiled [] (mkRegExp (hash_regex p) true)).
  set (loc := front ++ p).
  assert (Hreg : watch (Two (PString p) (VFun h)) (fresh loc)
                 = (Normal tt,
                    set_watching (Some [mkRule cp (VFun h)]) (fresh loc))).
  { apply (register_on_fresh [] loc p p); [|by apply hash_route_compiles].
    unfold with_base.
    replace (string_indexOf p []) with 0%Z by (by destruct p).
    by rewrite andb_false_r. }
  unfold mbind, M_bind, bind. rewrite Hreg.
  assert (Hmatch : is_Some (exec (regexp (mkRule cp (VFun h))) loc)).
  { apply hash_route_exec. exists front, p, []. rewrite app_nil_r.
    split; [done|]. split; [done|by left]. }
  destruct (run_hits no_options loc
              (set_watching (Some [mkRule cp (VFun h)]) (fresh loc))
              (mkRule cp (VFun h)) [] [] h eq_refl eq_refl eq_refl
              (List.Forall_nil _) Hmatch eq_refl eq_refl eq_refl)
    as (c & w' & ps & evs & Hrun & _ & _ & Hcalls).
  by exists c, w'.
Qed.

Lemma hash_route_follows_location_witness :
  (forall w, watch (OneString []) w = watch NoArgument w)
  /\ exists c w',
       (watch (Two (PString (str "#about")) (VFun page));; watch NoArgument)
         (fresh (str "/index.html" ++ str "#about")) = (c, w')
       /\ calls (history w') = [Handler (fid page)].
Proof.
  apply (hash_route_follows_location (str "#about") (str "/index.html") page).
  - repeat constructor.
  - reflexivity.
Defined.

End EndToEndFacts.
